(** * Longstaff-Schwartz Monte Carlo with repetitions

    A shallow embedding of the notebook
    [4-Super_LSMC/4.2.1-Extended_example_repeats.ipynb]: geometric Brownian
    motion path simulation, the backward induction that regresses the
    discounted cash flows of the in-the-money paths on [1, S, S^2], and the
    outer loop that repeats the experiment and reports the mean and the
    standard deviation of the price estimates.

    Numbers are the real numbers of the Standard Library (exact arithmetic:
    no rounding, no nan, no overflow).  numpy arrays are lists, indexed with
    stdpp's lookup and updated with stdpp's insert; a two dimensional array
    is the list of its rows.  The process-wide random generator is a cursor
    into the sequence of standard normal draws the seeded generator yields.
    [numpy.linalg.lstsq] is a parameter of the development. *)

From Stdlib Require Import Reals Lra Lia.
From stdpp Require Import base list.

#[global] Instance R_inhabited : Inhabited R := populate 0%R.

(** ** numpy primitives *)

Module Np.

(** [x < y] on floats, as a boolean. *)
Definition Rltb (x y : R) : bool := if Rlt_dec x y then true else false.

(** [np.where(c)[0]]: the indices at which [c] holds, in increasing order. *)
Fixpoint where_from (k : nat) (c : list bool) : list nat :=
  match c with
  | [] => []
  | b :: c' => if b then k :: where_from (S k) c' else where_from (S k) c'
  end.

Definition where1 (c : list bool) : list nat := where_from 0 c.

(** [np.where(c, a, b)], elementwise. *)
Definition where3 {A : Type} (c : list bool) (a b : list A) : list A :=
  zip_with (fun f x => f x)
    (zip_with (fun (ci : bool) (ai bi : A) => if ci then ai else bi) c a) b.

(** [v[idx]] with an index array: the entries of [v] at [idx].  The index
    arrays of the program come from [where1] over an array of the same
    length, so no index is out of range. *)
Definition fancy_get {A : Type} `{Inhabited A} (v : list A) (idx : list nat) : list A :=
  (fun j => v !!! j) <$> idx.

(** [v[idx] = vals]: the assignments are made in the order of [idx]. *)
Fixpoint fancy_set {A : Type} (v : list A) (idx : list nat) (vals : list A) : list A :=
  match idx, vals with
  | j :: idx', x :: vals' => fancy_set (<[j:=x]> v) idx' vals'
  | _, _ => v
  end.

(** [M[:, i]] and [M[:, i] = v] for a matrix given by its rows. *)
Definition col (i : nat) (M : list (list R)) : list R := (fun row => row !!! i) <$> M.

Definition set_col (i : nat) (v : list R) (M : list (list R)) : list (list R) :=
  zip_with (fun row x => <[i:=x]> row) M v.

(** [M[:, -1]]. *)
Definition col_last (M : list (list R)) : list R := (fun row => default 0%R (last row)) <$> M.

Definition zeros (n : nat) : list R := replicate n 0%R.

Definition zeros2 (n m : nat) : list (list R) := replicate n (zeros m).

Definition sum (a : list R) : R := foldr Rplus 0%R a.

(** [np.mean(a)].  On an empty array numpy yields nan; the quotient below is
    then [0 / 0], so statements about means are made for non-empty arrays. *)
Definition mean (a : list R) : R := (sum a / INR (length a))%R.

(** [np.var(a, ddof)] and [np.std(a)]: the default [ddof] is 0. *)
Definition var (ddof : nat) (a : list R) : R :=
  (sum ((fun x => (x - mean a) ^ 2) <$> a) / (INR (length a) - INR ddof))%R.

Definition std (a : list R) : R := sqrt (var 0 a).

(** [np.maximum(K - s, 0)], elementwise. *)
Definition put_value (K : R) (s : list R) : list R := (fun x => Rmax (K - x) 0) <$> s.

End Np.

(** ** Data of one repetition *)

(** A row of the design matrix [X] and the coefficient vector [beta]. *)
Definition vec3 : Type := R * R * R.

Definition design_row (s : R) : vec3 := (1, s, s ^ 2)%R.

Definition dot3 (x b : vec3) : R :=
  let '(x0, x1, x2) := x in
  let '(b0, b1, b2) := b in
  (x0 * b0 + x1 * b1 + x2 * b2)%R.

(** [X @ beta]. *)
Definition matvec (X : list vec3) (beta : vec3) : list R := (fun x => dot3 x beta) <$> X.

(** The residual sum of squares [|X b - y|^2] that [lstsq] minimises. *)
Definition rss (X : list vec3) (y : list R) (b : vec3) : R :=
  Np.sum (zip_with (fun x yi => (dot3 x b - yi) ^ 2)%R X y).

(** The arrays the backward induction updates. *)
Record ExerciseState : Type := mkState {
  intrinsic : list R;
  payoff : list R;
  exec_t : list nat;
  betas : list vec3
}.

(** What a run ends with: the two printed numbers, or an exception.  The
    script has no [raise] of its own; [ConfigurationError] is the error the
    specification asks for on invalid parameters. *)
Inductive exception : Type := ConfigurationError.

Inductive outcome : Type :=
  | Printed (price_mean price_std : R)
  | Raised (e : exception).

(** The random generator: the number of draws consumed so far. *)
Definition rng : Type := nat.

(** ** A least-squares solver

    An instance of the parameter [lstsq], used where a statement is applied
    to concrete data: Gram-Schmidt orthogonalisation of the three columns of
    [X], followed by the projection of [y].  A column that depends linearly
    on the previous ones gets the coefficient [0 / 0 = 0]; on an empty
    design matrix the result is [(0, 0, 0)], as numpy's. *)

(** A row of the regression problem: a row of [X] with its entry of [y]. *)
Definition obs : Type := vec3 * R.

Definition col0 (p : obs) : R := p.1.1.1.

Definition col1 (p : obs) : R := p.1.1.2.

Definition col2 (p : obs) : R := p.1.2.

Definition target (p : obs) : R := p.2.

(** The inner product of two columns, given as functions of the row. *)
Definition ip (L : list obs) (u v : obs -> R) : R :=
  Np.sum ((fun p => u p * v p)%R <$> L).

(** The coefficient of the projection of [v] on [u]. *)
Definition coef (L : list obs) (u v : obs -> R) : R := (ip L v u / ip L u u)%R.

Definition gs_k21 (L : list obs) : R := coef L col0 col1.

Definition gs_u2 (L : list obs) (p : obs) : R := (col1 p - gs_k21 L * col0 p)%R.

Definition gs_k31 (L : list obs) : R := coef L col0 col2.

Definition gs_k32 (L : list obs) : R := coef L (gs_u2 L) col2.

Definition gs_u3 (L : list obs) (p : obs) : R :=
  (col2 p - gs_k31 L * col0 p - gs_k32 L * gs_u2 L p)%R.

Definition gs_g1 (L : list obs) : R := coef L col0 target.

Definition gs_g2 (L : list obs) : R := coef L (gs_u2 L) target.

Definition gs_g3 (L : list obs) : R := coef L (gs_u3 L) target.

(** What is left of [y] after the projection. *)
Definition gs_rest (L : list obs) (p : obs) : R :=
  (target p - gs_g1 L * col0 p - gs_g2 L * gs_u2 L p - gs_g3 L * gs_u3 L p)%R.

Definition lstsq_gs (X : list vec3) (y : list R) : vec3 :=
  let L := zip X y in
  (gs_g1 L - gs_g2 L * gs_k21 L - gs_g3 L * (gs_k31 L - gs_k32 L * gs_k21 L),
   gs_g2 L - gs_g3 L * gs_k32 L,
   gs_g3 L)%R.

(** The residual of row [p] for the coefficients [b]. *)
Definition residual (b : vec3) (p : obs) : R := (dot3 p.1 b - p.2)%R.

(** ** The specification's standard deviation *)

(** The sample standard deviation in the words of the specification: the
    square root of the sum of squared deviations from the mean divided by
    [R - 1]. *)
Definition sample_std (a : list R) : R :=
  sqrt (Np.sum ((fun x => (x - Np.mean a) ^ 2)%R <$> a) / (INR (length a) - 1)).

(** ** Example data *)

(** One path over two steps: at the money, then out of the money, then in
    the money at maturity. *)
Definition batch_otm : list (list R) := [[1; 2; / 2]]%R.

(** One path over two steps that stays in the money. *)
Definition batch_itm : list (list R) := [[/ 2; / 2; / 2]]%R.

(** One path over two steps that is in the money at [t = 1] and at the
    money at maturity. *)
Definition batch_early : list (list R) := [[1; / 2; 1]]%R.

(** One path over a single step, in the money at maturity. *)
Definition batch_single : list (list R) := [[1; / 2]]%R.

(** A generator whose draws are all zero. *)
Definition draws_zero (k : nat) : R := 0%R.

(** A generator whose first draw is [1/2] and whose later draws are
    [1/2 + ln 3]. *)
Definition draws_two (k : nat) : R := if Nat.eqb k 0 then (/ 2)%R else (/ 2 + ln 3)%R.

(** ** The program *)

Section Program.

(** The parameters of the script.  [Rn] is the script's [R], the number of
    repetitions; [Spaths] below is its [S].  The counts [nt], [N] and [Rn]
    are natural numbers: with a negative one [np.zeros] raises before
    anything is computed, which is left out. *)
Variables (r K dt : R) (nt N Rn : nat) (S0 sigma : R).

(** The sequence of standard normal draws after [np.random.seed(42)]. *)
Variable draws : nat -> R.

(** [lstsq(X, y, rcond=None)[0]]. *)
Variable lstsq : list vec3 -> list R -> vec3.

(** [np.random.normal(0, 1, n)]. *)
Definition random_normal (n : nat) (g : rng) : list R * rng :=
  (draws <$> seq g n, (g + n)%nat).

(** [S[:, i - 1] * np.exp((r - 0.5 * sigma**2) * dt + sigma * np.sqrt(dt) * Z)].
    For [dt < 0] numpy's square root is nan while [sqrt dt] is 0 here: the
    definition follows the code for [dt >= 0]. *)
Definition gbm_step (Sprev Z : list R) : list R :=
  zip_with (fun s z => s * exp ((r - 0.5 * sigma ^ 2) * dt + sigma * sqrt dt * z))%R Sprev Z.

Definition simulate_body (Sg : list (list R) * rng) (i : nat) : list (list R) * rng :=
  let '(Spaths, g) := Sg in
  let '(Z, g') := random_normal N g in
  (Np.set_col i (gbm_step (Np.col (i - 1) Spaths) Z) Spaths, g').

(** The path simulation of one repetition. *)
Definition simulate (g : rng) : list (list R) * rng :=
  let Spaths := Np.zeros2 N (nt + 1) in
  let Spaths := Np.set_col 0 (replicate N S0) Spaths in
  fold_left simulate_body (seq 1 nt) (Spaths, g).

(** STEP 1: [np.exp(-r * dt) * payoff]. *)
Definition discount (pay : list R) : list R := Rmult (exp (- r * dt)) <$> pay.

(** STEP 2: [np.where(S[:, t_now] < K)[0]]. *)
Definition itm_paths (Spaths : list (list R)) (t_now : nat) : list nat :=
  Np.where1 ((fun s => Np.Rltb s K) <$> Np.col t_now Spaths).

(** STEPS 3 to 5: the regression of the discounted cash flows of the
    in-the-money paths on [1, S, S^2]. *)
Definition design (Spaths : list (list R)) (t_now : nat) : list vec3 :=
  design_row <$> (Np.fancy_get (Np.col t_now Spaths) (itm_paths Spaths t_now)).

Definition regress (Spaths : list (list R)) (st : ExerciseState) (t_now : nat) : vec3 :=
  lstsq (design Spaths t_now) (Np.fancy_get (discount (payoff st)) (itm_paths Spaths t_now)).

(** The body of the backward loop. *)
Definition backward_step (Spaths : list (list R)) (st : ExerciseState) (t_now : nat)
  : ExerciseState :=
  let dcf := discount (payoff st) in
  let itm := itm_paths Spaths t_now in
  let X := design Spaths t_now in
  let beta := regress Spaths st t_now in
  let betas' := <[t_now := beta]> (betas st) in
  let y_hat := matvec X beta in
  let intrinsic' :=
    Np.fancy_set (intrinsic st) itm
      (Np.put_value K (Np.fancy_get (Np.col t_now Spaths) itm)) in
  let exec_t' :=
    Np.fancy_set (exec_t st) itm
      (Np.where3 (zip_with Np.Rltb y_hat (Np.fancy_get intrinsic' itm))
                 (replicate (length itm) t_now)
                 (Np.fancy_get (exec_t st) itm)) in
  let payoff' := Np.where3 ((fun e => Nat.eqb e t_now) <$> exec_t') intrinsic' dcf in
  mkState intrinsic' payoff' exec_t' betas'.

(** The arrays before the backward loop. *)
Definition solver_init (Spaths : list (list R)) : ExerciseState :=
  let intrinsic0 := Np.put_value K (Np.col_last Spaths) in
  mkState intrinsic0 intrinsic0 (Nat.mul nt <$> replicate N 1%nat)
          (replicate nt (0, 0, 0)%R).

(** [range(nt - 1, 0, -1)]. *)
Definition backward_range : list nat := reverse (seq 1 (nt - 1)).

(** The state after the steps [ts] of the backward loop. *)
Definition state_after (Spaths : list (list R)) (ts : list nat) : ExerciseState :=
  fold_left (backward_step Spaths) ts (solver_init Spaths).

Definition backward_induction (Spaths : list (list R)) : ExerciseState :=
  state_after Spaths backward_range.

(** The price estimate of one path batch: the mean of the cash flows
    discounted to time 0. *)
Definition price (Spaths : list (list R)) : R :=
  Np.mean (discount (payoff (backward_induction Spaths))).

(** One repetition: simulate, solve, store the estimate. *)
Definition repetition (pg : list R * rng) (repnum : nat) : list R * rng :=
  let '(price_estimate, g) := pg in
  let '(Spaths, g') := simulate g in
  (<[repnum := price Spaths]> price_estimate, g').

Definition repetitions : list R * rng :=
  fold_left repetition (seq 0 Rn) (Np.zeros Rn, 0%nat).

(** The whole script: what it prints and the state of the generator. *)
Definition run : outcome * rng :=
  let '(price_estimate, g) := repetitions in
  (Printed (Np.mean price_estimate) (Np.std price_estimate), g).

(** ** Vocabulary of the statements *)

(** [S[j, t]]. *)
Definition S_at (Spaths : list (list R)) (j t : nat) : R := (Spaths !!! j) !!! t.

(** The arrays of the state have one entry per path. *)
Definition shaped (st : ExerciseState) : Prop :=
  length (intrinsic st) = N /\ length (payoff st) = N /\ length (exec_t st) = N.

(** The fitted continuation value [y_hat] of a path whose price is [s]. *)
Definition fitted (Spaths : list (list R)) (st : ExerciseState) (t_now : nat) (s : R) : R :=
  dot3 (design_row s) (regress Spaths st t_now).

(** A path batch has [N] rows of [nt + 1] prices. *)
Definition batch_shape (Spaths : list (list R)) : Prop :=
  length Spaths = N /\ Forall (fun row => length row = S nt) Spaths.

(** Arrays with no negative entry. *)
Definition nonneg (a : list R) : Prop := Forall (fun x => 0 <= x)%R a.

(** The multiplicative factor of one GBM step, given the draw [z]. *)
Definition gbm_factor (z : R) : R :=
  exp ((r - 0.5 * sigma ^ 2) * dt + sigma * sqrt dt * z).

(** The batch and the generator after the first [k] simulation steps. *)
Definition simulate_upto (g : rng) (k : nat) : list (list R) * rng :=
  fold_left simulate_body (seq 1 k)
    (Np.set_col 0 (replicate N S0) (Np.zeros2 N (nt + 1)), g).

(** The price estimate of repetition [k]: the generator has then given
    [k * (nt * N)] draws. *)
Definition estimate (k : nat) : R := price (simulate (k * (nt * N))).1.

(** A batch all of whose prices are [S0]. *)
Definition constant_batch (Spaths : list (list R)) : Prop :=
  batch_shape Spaths /\
  forall j i, (j < N)%nat -> (i <= nt)%nat -> S_at Spaths j i = S0.

(** The sum of the first [i] draws of path [j], in a simulation that
    starts with the generator at [g]. *)
Fixpoint draw_sum (g j i : nat) : R :=
  match i with
  | O => 0%R
  | S k => (draw_sum g j k + draws (g + k * N + j))%R
  end.

(** The steps of the backward loop that come before the step at time
    [t]: [nt - 1], ..., [t + 1]. *)
Definition steps_before (t : nat) : list nat := reverse (seq (S t) (nt - 1 - t)).

(** The exercise test of STEP 7 for path [j] at time [t], on the state the
    loop has reached when it comes to [t]: the path is in the money and
    its fitted continuation value is below its intrinsic value. *)
Definition exercise_test (Spaths : list (list R)) (t j : nat) : bool :=
  let s := S_at Spaths j t in
  Np.Rltb s K &&
  Np.Rltb (fitted Spaths (state_after Spaths (steps_before t)) t s) (Rmax (K - s) 0).

(** The exercise cash flow of path [j], discounted from its final exercise
    time to time 0. *)
Definition exercise_value (Spaths : list (list R)) (j : nat) : R :=
  let e := exec_t (backward_induction Spaths) !!! j in
  (exp (- r * dt * INR e) * Rmax (K - S_at Spaths j e) 0)%R.

(** An index array in strictly increasing order. *)
Definition increasing (l : list nat) : Prop :=
  forall a b x y, (a < b)%nat -> l !! a = Some x -> l !! b = Some y -> (x < y)%nat.

(** ** Lemmas on the numpy primitives *)

Section NumpyLemmas.

Lemma Rltb_true (x y : R) : Np.Rltb x y = true <-> (x < y)%R.
Proof. unfold Np.Rltb. destruct (Rlt_dec x y); split; intros; try done. Qed.

Lemma Rltb_false (x y : R) : Np.Rltb x y = false <-> (y <= x)%R.
Proof.
  unfold Np.Rltb. destruct (Rlt_dec x y); split; intros; try done; lra.
Qed.

Lemma elem_of_where_from (c : list bool) (k j : nat) :
  j ∈ Np.where_from k c <-> (k <= j)%nat /\ c !! (j - k)%nat = Some true.
Proof.
  revert k. induction c as [|b c IH]; intros k; simpl.
  - split; [intros H; inversion H | intros [_ H]; done].
  - assert (Hrec : j ∈ Np.where_from (S k) c <->
                   (k < j)%nat /\ (b :: c) !! (j - k)%nat = Some true).
    { rewrite IH. split.
      - intros [Hle Hj]. split; [lia|].
        replace (j - k)%nat with (S (j - S k)) by lia. done.
      - intros [Hlt Hj]. split; [lia|].
        replace (j - k)%nat with (S (j - S k)) in Hj by lia. done. }
    destruct b.
    + rewrite elem_of_cons, Hrec. split.
      * intros [-> | [Hlt Hj]]; [|split; [lia|done]].
        split; [lia|]. by rewrite Nat.sub_diag.
      * intros [Hle Hj]. destruct (decide (j = k)) as [->|Hne]; [by left|].
        right. split; [lia|done].
    + rewrite Hrec. split.
      * intros [Hlt Hj]. split; [lia|done].
      * intros [Hle Hj]. destruct (decide (j = k)) as [->|Hne].
        { rewrite Nat.sub_diag in Hj. done. }
        split; [lia|done].
Qed.

Lemma elem_of_where1 (c : list bool) (j : nat) :
  j ∈ Np.where1 c <-> c !! j = Some true.
Proof.
  unfold Np.where1. rewrite elem_of_where_from, Nat.sub_0_r.
  split; [by intros [_ ?] | intros; split; [lia|done]].
Qed.

Lemma where1_nil_iff (c : list bool) :
  Np.where1 c = [] <-> forall j, c !! j <> Some true.
Proof.
  split.
  - intros Hnil j Hj. apply elem_of_where1 in Hj. rewrite Hnil in Hj. inversion Hj.
  - intros Hall. destruct (Np.where1 c) as [|j l] eqn:E; [done|].
    exfalso. apply (Hall j), elem_of_where1. rewrite E. left.
Qed.

Lemma fancy_set_length {A : Type} (idx : list nat) (vals v : list A) :
  length (Np.fancy_set v idx vals) = length v.
Proof.
  revert vals v. induction idx as [|a idx IH]; intros [|x vals] v; simpl; try done.
  by rewrite IH, length_insert.
Qed.

Lemma fancy_set_lookup {A : Type} (f : nat -> A) (idx : list nat) (v : list A) (j : nat) :
  (j < length v)%nat ->
  Np.fancy_set v idx (f <$> idx) !! j =
  if decide (j ∈ idx) then Some (f j) else v !! j.
Proof.
  revert v. induction idx as [|a idx IH]; intros v Hj; simpl.
  - destruct (decide (j ∈ [])) as [Hin|_]; [inversion Hin|done].
  - rewrite IH by (by rewrite length_insert).
    destruct (decide (j ∈ idx)) as [Hin|Hnin].
    + rewrite decide_True; [done|by right].
    + destruct (decide (a = j)) as [->|Hne].
      * rewrite list_lookup_insert_eq by done.
        rewrite decide_True; [done|by left].
      * rewrite list_lookup_insert_ne by done.
        rewrite decide_False; [done|].
        rewrite elem_of_cons. intros [->|?]; done.
Qed.

Lemma where3_fmap {A B : Type} (p : B -> bool) (f g : B -> A) (l : list B) :
  Np.where3 (p <$> l) (f <$> l) (g <$> l) = (fun x => if p x then f x else g x) <$> l.
Proof. unfold Np.where3. induction l as [|x l IH]; simpl; [done|by f_equal]. Qed.

Lemma where3_length {A : Type} (c : list bool) (a b : list A) :
  length a = length c -> length b = length c -> length (Np.where3 c a b) = length c.
Proof. intros Ha Hb. unfold Np.where3. rewrite !length_zip_with. lia. Qed.

Lemma where3_lookup {A : Type} (c : list bool) (a b : list A) (j : nat)
    (ci : bool) (ai bi : A) :
  c !! j = Some ci -> a !! j = Some ai -> b !! j = Some bi ->
  Np.where3 c a b !! j = Some (if ci then ai else bi).
Proof.
  intros Hc Ha Hb. unfold Np.where3.
  rewrite !lookup_zip_with, Hc, Ha, Hb. done.
Qed.

Lemma sum_replicate (n : nat) (x : R) : Np.sum (replicate n x) = (INR n * x)%R.
Proof.
  induction n as [|n IH]; [simpl; unfold Np.sum; simpl; lra|].
  rewrite S_INR. unfold Np.sum in *. simpl. rewrite IH. lra.
Qed.

Lemma mean_replicate (n : nat) (x : R) : (1 <= n)%nat -> Np.mean (replicate n x) = x.
Proof.
  intros Hn. unfold Np.mean. rewrite sum_replicate, length_replicate.
  field. apply not_0_INR. lia.
Qed.

Lemma sum_nonneg (a : list R) : Forall (fun x => 0 <= x)%R a -> (0 <= Np.sum a)%R.
Proof.
  induction 1 as [|x a Hx _ IH]; unfold Np.sum in *; simpl; lra.
Qed.

Lemma mean_nonneg (a : list R) : Forall (fun x => 0 <= x)%R a -> (0 <= Np.mean a)%R.
Proof.
  intros Ha. unfold Np.mean. destruct a as [|x a].
  - unfold Np.sum. simpl. rewrite Rdiv_0_l. lra.
  - apply Rmult_le_pos; [by apply sum_nonneg|].
    apply Rlt_le, Rinv_0_lt_compat, lt_0_INR. simpl. lia.
Qed.

Lemma where3_all_false {A : Type} (c : list bool) (a b : list A) :
  Forall (fun ci => ci = false) c -> length a = length c -> length b = length c ->
  Np.where3 c a b = b.
Proof.
  unfold Np.where3. intros Hc. revert a b.
  induction Hc as [|ci c -> _ IH]; intros [|ai a] [|bi b] Ha Hb; simplify_eq/=; try done.
  f_equal. by apply IH.
Qed.

Lemma where3_Forall {A : Type} (P : A -> Prop) (c : list bool) (a b : list A) :
  Forall P a -> Forall P b -> Forall P (Np.where3 c a b).
Proof.
  unfold Np.where3. intros Ha. revert c b.
  induction Ha as [|ai a Hai _ IH]; intros [|ci c] b Hb; simpl; try done.
  destruct Hb as [|bi b Hbi Hb]; simpl; [done|].
  constructor; [by destruct ci|by apply IH].
Qed.

Lemma fancy_set_Forall {A : Type} (P : A -> Prop) (idx : list nat) (vals v : list A) :
  Forall P v -> Forall P vals -> Forall P (Np.fancy_set v idx vals).
Proof.
  revert vals v. induction idx as [|j idx IH]; intros vals v Hv Hvals; simpl; [done|].
  destruct Hvals as [|x vals Hx Hvals]; [done|].
  apply IH; [|done]. by apply Forall_insert.
Qed.

End NumpyLemmas.

(** ** One step of the backward loop, path by path *)

Lemma col_lookup (Spaths : list (list R)) (j t : nat) :
  (j < length Spaths)%nat -> Np.col t Spaths !! j = Some (S_at Spaths j t).
Proof.
  intros Hj. unfold Np.col, S_at. rewrite list_lookup_fmap.
  destruct (lookup_lt_is_Some_2 Spaths j Hj) as [row Hrow].
  rewrite Hrow. simpl. by rewrite (list_lookup_total_correct _ _ _ Hrow).
Qed.

Lemma col_lookup_total (Spaths : list (list R)) (j t : nat) :
  (j < length Spaths)%nat -> Np.col t Spaths !!! j = S_at Spaths j t.
Proof. intros Hj. apply list_lookup_total_correct. by apply col_lookup. Qed.

Lemma elem_of_itm_paths (Spaths : list (list R)) (j t : nat) :
  j ∈ itm_paths Spaths t <-> (j < length Spaths)%nat /\ (S_at Spaths j t < K)%R.
Proof.
  unfold itm_paths. rewrite elem_of_where1, list_lookup_fmap. split.
  - intros Hj. destruct (Np.col t Spaths !! j) as [s|] eqn:E; [|done].
    assert (Hlt : (j < length Spaths)%nat).
    { apply lookup_lt_Some in E. unfold Np.col in E. by rewrite length_fmap in E. }
    rewrite col_lookup in E by done. simplify_eq/=.
    split; [done|]. by apply Rltb_true.
  - intros [Hlt Hs]. rewrite col_lookup by done. simpl.
    f_equal. by apply Rltb_true.
Qed.

Lemma itm_decide (Spaths : list (list R)) (j t : nat) (A : Type) (x y : A) :
  (j < length Spaths)%nat ->
  (if decide (j ∈ itm_paths Spaths t) then x else y) =
  (if Np.Rltb (S_at Spaths j t) K then x else y).
Proof.
  intros Hj. destruct (decide (j ∈ itm_paths Spaths t)) as [Hin|Hnin].
  - apply elem_of_itm_paths in Hin as [_ Hs].
    apply Rltb_true in Hs. by rewrite Hs.
  - destruct (Np.Rltb (S_at Spaths j t) K) eqn:E; [|done].
    exfalso. apply Hnin, elem_of_itm_paths. split; [done|]. by apply Rltb_true.
Qed.

(** The refreshed intrinsic values, as a function of the path index. *)
Lemma put_value_itm (Spaths : list (list R)) (t : nat) :
  Np.put_value K (Np.fancy_get (Np.col t Spaths) (itm_paths Spaths t)) =
  (fun j => Rmax (K - S_at Spaths j t) 0) <$> itm_paths Spaths t.
Proof.
  unfold Np.put_value, Np.fancy_get. rewrite <- list_fmap_compose.
  apply list_fmap_ext. intros i j Hi. simpl.
  apply list_elem_of_lookup_2, elem_of_itm_paths in Hi as [Hj _].
  by rewrite col_lookup_total.
Qed.

Lemma step_intrinsic (Spaths : list (list R)) (st : ExerciseState) (t j : nat) :
  length Spaths = N -> shaped st -> (j < N)%nat ->
  intrinsic (backward_step Spaths st t) !!! j =
  if Np.Rltb (S_at Spaths j t) K then Rmax (K - S_at Spaths j t) 0
  else intrinsic st !!! j.
Proof.
  intros HS (Hi & Hp & He) Hj. simpl.
  apply list_lookup_total_correct.
  rewrite put_value_itm, fancy_set_lookup by lia.
  rewrite itm_decide by lia.
  destruct (Np.Rltb (S_at Spaths j t) K); [done|].
  apply list_lookup_lookup_total_lt. lia.
Qed.

(** The exercise decisions of STEP 7, as a function of the path index. *)
Lemma exec_values_itm (Spaths : list (list R)) (st : ExerciseState) (t : nat) :
  length Spaths = N -> shaped st ->
  let itm := itm_paths Spaths t in
  let intrinsic' :=
    Np.fancy_set (intrinsic st) itm
      (Np.put_value K (Np.fancy_get (Np.col t Spaths) itm)) in
  Np.where3
    (zip_with Np.Rltb (matvec (design Spaths t) (regress Spaths st t))
       (Np.fancy_get intrinsic' itm))
    (replicate (length itm) t) (Np.fancy_get (exec_t st) itm) =
  (fun j => if Np.Rltb (fitted Spaths st t (S_at Spaths j t))
                       (Rmax (K - S_at Spaths j t) 0)
            then t else exec_t st !!! j) <$> itm.
Proof.
  intros HS (Hi & Hp & He) itm intrinsic'.
  unfold matvec, design, Np.fancy_get. fold itm.
  rewrite <- !list_fmap_compose.
  rewrite zip_with_fmap_l, zip_with_fmap_r, zip_with_diag.
  rewrite <- (fmap_replicate (fun _ : unit => t) (length itm) tt).
  rewrite <- (const_fmap (fun _ : nat => tt) itm tt) by done.
  rewrite <- list_fmap_compose.
  rewrite where3_fmap.
  apply list_fmap_ext. intros i j Hij. simpl.
  apply list_elem_of_lookup_2 in Hij.
  assert (Hin := Hij). apply elem_of_itm_paths in Hin as [Hj Hs].
  rewrite col_lookup_total by done.
  assert (Hint : intrinsic' !!! j = Rmax (K - S_at Spaths j t) 0).
  { apply list_lookup_total_correct. unfold intrinsic'.
    rewrite put_value_itm, fancy_set_lookup by lia.
    by rewrite decide_True. }
  rewrite Hint. done.
Qed.

Lemma step_exec_t (Spaths : list (list R)) (st : ExerciseState) (t j : nat) :
  length Spaths = N -> shaped st -> (j < N)%nat ->
  exec_t (backward_step Spaths st t) !!! j =
  if Np.Rltb (S_at Spaths j t) K &&
     Np.Rltb (fitted Spaths st t (S_at Spaths j t)) (Rmax (K - S_at Spaths j t) 0)
  then t else exec_t st !!! j.
Proof.
  intros HS Hst Hj. simpl.
  apply list_lookup_total_correct.
  rewrite exec_values_itm by done.
  destruct Hst as (Hi & Hp & He).
  rewrite fancy_set_lookup by lia.
  rewrite itm_decide by lia.
  destruct (Np.Rltb (S_at Spaths j t) K); simpl; [done|].
  apply list_lookup_lookup_total_lt. lia.
Qed.

Lemma step_shaped (Spaths : list (list R)) (st : ExerciseState) (t : nat) :
  shaped st -> shaped (backward_step Spaths st t).
Proof.
  intros (Hi & Hp & He). unfold shaped. simpl.
  rewrite !fancy_set_length.
  split; [done|]. split; [|done].
  unfold discount.
  rewrite where3_length; rewrite ?length_fmap, ?fancy_set_length; lia.
Qed.

Lemma discount_lookup (pay : list R) (j : nat) :
  (j < length pay)%nat -> discount pay !!! j = (exp (- r * dt) * pay !!! j)%R.
Proof.
  intros Hj. unfold discount. apply list_lookup_total_correct.
  rewrite list_lookup_fmap. by rewrite (list_lookup_lookup_total_lt pay j).
Qed.

Lemma step_payoff (Spaths : list (list R)) (st : ExerciseState) (t j : nat) :
  shaped st -> (j < N)%nat ->
  payoff (backward_step Spaths st t) !!! j =
  if Nat.eqb (exec_t (backward_step Spaths st t) !!! j) t
  then intrinsic (backward_step Spaths st t) !!! j
  else (exp (- r * dt) * payoff st !!! j)%R.
Proof.
  intros Hst Hj.
  destruct (step_shaped Spaths st t Hst) as (Hi' & _ & He').
  destruct Hst as (Hi & Hp & He).
  rewrite <- discount_lookup by lia.
  apply list_lookup_total_correct.
  change (payoff (backward_step Spaths st t)) with
    (Np.where3 ((fun e => Nat.eqb e t) <$> exec_t (backward_step Spaths st t))
       (intrinsic (backward_step Spaths st t)) (discount (payoff st))).
  apply where3_lookup.
  - rewrite list_lookup_fmap.
    rewrite (list_lookup_lookup_total_lt (exec_t (backward_step Spaths st t)) j) by lia.
    done.
  - apply list_lookup_lookup_total_lt. lia.
  - apply list_lookup_lookup_total_lt. unfold discount. rewrite length_fmap. lia.
Qed.

(** ** The backward loop *)

Lemma backward_range_lookup (i t : nat) :
  backward_range !! i = Some t -> t = (nt - 1 - i)%nat /\ (i < nt - 1)%nat.
Proof.
  unfold backward_range. intros Hi.
  assert (Hlt : (i < nt - 1)%nat).
  { apply lookup_lt_Some in Hi. by rewrite length_reverse, length_seq in Hi. }
  rewrite reverse_lookup in Hi by (by rewrite length_seq).
  rewrite length_seq in Hi. apply lookup_seq in Hi as [-> _]. lia.
Qed.

Lemma backward_range_split (pre post : list nat) (t : nat) :
  backward_range = pre ++ t :: post ->
  t = (nt - 1 - length pre)%nat /\ (length pre < nt - 1)%nat.
Proof.
  intros Hsplit. apply backward_range_lookup.
  rewrite Hsplit. by apply list_lookup_middle.
Qed.

Lemma state_after_snoc (Spaths : list (list R)) (pre : list nat) (t : nat) :
  state_after Spaths (pre ++ [t]) = backward_step Spaths (state_after Spaths pre) t.
Proof. unfold state_after. by rewrite fold_left_app. Qed.

(** Induction along the backward loop: a property of the state after [k]
    steps that holds before the loop and is kept by the step at time
    [nt - 1 - k] holds after every prefix of the loop. *)
Lemma backward_loop_ind (Spaths : list (list R)) (P : nat -> ExerciseState -> Prop) :
  P 0%nat (solver_init Spaths) ->
  (forall k st, (k < nt - 1)%nat -> P k st ->
     P (S k) (backward_step Spaths st (nt - 1 - k))) ->
  forall pre post, backward_range = pre ++ post ->
    P (length pre) (state_after Spaths pre).
Proof.
  intros Hinit Hstep pre. induction pre as [|t pre IH] using rev_ind; intros post Hsplit.
  - done.
  - rewrite <- app_assoc in Hsplit. simpl in Hsplit.
    destruct (backward_range_split _ _ _ Hsplit) as [-> Hlt].
    rewrite state_after_snoc, length_app. simpl.
    rewrite Nat.add_1_r. apply Hstep; [done|]. eapply IH, Hsplit.
Qed.

Lemma solver_init_shaped (Spaths : list (list R)) :
  length Spaths = N -> shaped (solver_init Spaths).
Proof.
  intros HS. unfold shaped, solver_init, Np.put_value, Np.col_last. simpl.
  by rewrite !length_fmap, length_replicate.
Qed.

Lemma solver_init_exec_t (Spaths : list (list R)) (j : nat) :
  (j < N)%nat -> exec_t (solver_init Spaths) !!! j = nt.
Proof.
  intros Hj. simpl. apply list_lookup_total_correct.
  rewrite list_lookup_fmap, lookup_replicate_2 by done. simpl. f_equal. lia.
Qed.

(** After [k] steps the arrays are well shaped and every exercise time lies
    between the time of the last step and [nt]. *)
Lemma exec_t_bounds (Spaths : list (list R)) (pre post : list nat) :
  length Spaths = N -> backward_range = pre ++ post ->
  shaped (state_after Spaths pre) /\
  forall j, (j < N)%nat ->
    (nt - length pre <= (exec_t (state_after Spaths pre) !!! j) <= nt)%nat.
Proof.
  intros HS.
  apply (backward_loop_ind Spaths (fun k st =>
    shaped st /\ forall j, (j < N)%nat -> (nt - k <= (exec_t st !!! j) <= nt)%nat)).
  - split; [by apply solver_init_shaped|].
    intros j Hj. rewrite solver_init_exec_t by done. lia.
  - intros k st Hk [Hst Hb]. split; [by apply step_shaped|].
    intros j Hj. rewrite step_exec_t by done. specialize (Hb j Hj).
    destruct (_ && _); lia.
Qed.

Lemma exec_t_before_step (Spaths : list (list R)) (pre post : list nat) (t j : nat) :
  length Spaths = N -> (j < N)%nat -> backward_range = pre ++ t :: post ->
  (1 <= t)%nat /\ (t < (exec_t (state_after Spaths pre) !!! j) <= nt)%nat.
Proof.
  intros HS Hj Hsplit.
  destruct (backward_range_split _ _ _ Hsplit) as [-> Hlt].
  destruct (exec_t_bounds Spaths pre _ HS Hsplit) as [_ Hb].
  specialize (Hb j Hj). lia.
Qed.

(** ** Exercise times *)

(** C2: for a batch of [N] paths and [nt >= 1], every path's exercise time
    is in 1..nt when the backward loop ends, and also before and after each
    of its steps; a step at time [t] either leaves a path's exercise time
    as it was or sets it to [t], which is strictly smaller than the time it
    replaces. *)
Theorem exec_t_valid_and_monotone (Spaths : list (list R)) (j : nat) :
  (1 <= nt)%nat -> length Spaths = N -> (j < N)%nat ->
  (1 <= (exec_t (backward_induction Spaths) !!! j) <= nt)%nat /\
  forall pre t post, backward_range = pre ++ t :: post ->
    let before := exec_t (state_after Spaths pre) !!! j in
    let after := exec_t (state_after Spaths (pre ++ [t])) !!! j in
    (1 <= t <= nt - 1)%nat /\
    (1 <= before <= nt)%nat /\ (1 <= after <= nt)%nat /\
    (after <= before)%nat /\
    (after = before \/ (after = t /\ t < before)%nat).
Proof.
  intros Hnt HS Hj. split.
  - destruct (exec_t_bounds Spaths backward_range [] HS) as [_ Hb].
    { by rewrite app_nil_r. }
    specialize (Hb j Hj). unfold backward_induction.
    assert (length backward_range = (nt - 1)%nat) as Hlen.
    { unfold backward_range. by rewrite length_reverse, length_seq. }
    rewrite Hlen in Hb. lia.
  - intros pre t post Hsplit before after.
    destruct (exec_t_before_step Spaths pre post t j HS Hj Hsplit) as [Ht Hbefore].
    destruct (backward_range_split _ _ _ Hsplit) as [Hteq Hlt].
    destruct (exec_t_bounds Spaths pre _ HS Hsplit) as [Hst _].
    fold before in Hbefore.
    assert (Hafter : after = before \/ after = t).
    { unfold after. rewrite state_after_snoc, step_exec_t by done.
      destruct (_ && _); [by right|by left]. }
    lia.
Qed.

(** C6: at every backward step [t], a path is in the regression exactly
    when [S[path, t] < K], so a path with [S[path, t] = K] is left out; and
    its exercise time becomes [t] exactly when it is in the money and its
    fitted continuation value is strictly below its recomputed intrinsic
    value: when the two are equal, the exercise time stays as it was. *)
Theorem strict_comparisons (Spaths : list (list R)) (pre post : list nat) (t j : nat) :
  length Spaths = N -> (j < N)%nat -> backward_range = pre ++ t :: post ->
  let st := state_after Spaths pre in
  let st' := state_after Spaths (pre ++ [t]) in
  let s := S_at Spaths j t in
  (j ∈ itm_paths Spaths t <-> (s < K)%R) /\
  (s = K -> (j ∉ itm_paths Spaths t) /\ exec_t st' !!! j = exec_t st !!! j) /\
  (exec_t st' !!! j = t <->
     (s < K)%R /\ (fitted Spaths st t s < intrinsic st' !!! j)%R) /\
  (j ∈ itm_paths Spaths t -> fitted Spaths st t s = intrinsic st' !!! j ->
     exec_t st' !!! j = exec_t st !!! j) /\
  (exec_t st' !!! j <> t -> exec_t st' !!! j = exec_t st !!! j).
Proof.
  intros HS Hj Hsplit st st' s.
  destruct (exec_t_before_step Spaths pre post t j HS Hj Hsplit) as [Ht Hbefore].
  destruct (exec_t_bounds Spaths pre _ HS Hsplit) as [Hst _].
  fold st in Hbefore, Hst.
  assert (Hitm : j ∈ itm_paths Spaths t <-> (s < K)%R).
  { rewrite elem_of_itm_paths. split; [by intros [_ ?]|]. intros; split; [lia|done]. }
  assert (Hexec : exec_t st' !!! j =
    if Np.Rltb s K && Np.Rltb (fitted Spaths st t s) (Rmax (K - s) 0)
    then t else exec_t st !!! j).
  { unfold st'. rewrite state_after_snoc. by apply step_exec_t. }
  assert (Hint : intrinsic st' !!! j =
    if Np.Rltb s K then Rmax (K - s) 0 else intrinsic st !!! j).
  { unfold st'. rewrite state_after_snoc. by apply step_intrinsic. }
  split; [done|]. split; [|split; [|split]].
  - intros Hs. split; [rewrite Hitm; lra|].
    rewrite Hexec. assert (Np.Rltb s K = false) as -> by (apply Rltb_false; lra).
    done.
  - rewrite Hexec, Hint. destruct (Np.Rltb s K) eqn:E1; simpl.
    + apply Rltb_true in E1.
      destruct (Np.Rltb (fitted Spaths st t s) (Rmax (K - s) 0)) eqn:E2.
      * apply Rltb_true in E2. done.
      * apply Rltb_false in E2. split; [lia|]. intros [_ ?]. lra.
    + apply Rltb_false in E1. split; [lia|]. intros [? _]. lra.
  - intros Hin Heq. rewrite Hexec. apply Hitm, Rltb_true in Hin.
    rewrite Hin in Hint |- *. rewrite <- Hint, Heq. simpl.
    assert (Np.Rltb (intrinsic st' !!! j) (intrinsic st' !!! j) = false) as ->
      by (apply Rltb_false; lra).
    done.
  - rewrite Hexec. destruct (_ && _); done.
Qed.

(** C9: at every backward step [t], a path's exercise time becomes [t] only
    if the path is in the money at [t]; for a path that is out of the money
    at [t] the test [exec_t == t_now] of the payoff update fails, so its
    payoff is its discounted cash flow and the intrinsic value stored for
    it, which the step leaves as it was, is not copied. *)
Theorem exercise_only_in_the_money
    (Spaths : list (list R)) (pre post : list nat) (t j : nat) :
  length Spaths = N -> (j < N)%nat -> backward_range = pre ++ t :: post ->
  let st := state_after Spaths pre in
  let st' := state_after Spaths (pre ++ [t]) in
  (exec_t st !!! j <> t) /\
  (exec_t st' !!! j = t -> j ∈ itm_paths Spaths t /\ (S_at Spaths j t < K)%R) /\
  ((K <= S_at Spaths j t)%R ->
     exec_t st' !!! j <> t /\
     intrinsic st' !!! j = intrinsic st !!! j /\
     payoff st' !!! j = (exp (- r * dt) * payoff st !!! j)%R).
Proof.
  intros HS Hj Hsplit st st'.
  destruct (exec_t_before_step Spaths pre post t j HS Hj Hsplit) as [Ht Hbefore].
  destruct (exec_t_bounds Spaths pre _ HS Hsplit) as [Hst _].
  fold st in Hbefore, Hst.
  assert (Hexec : exec_t st' !!! j =
    if Np.Rltb (S_at Spaths j t) K &&
       Np.Rltb (fitted Spaths st t (S_at Spaths j t)) (Rmax (K - S_at Spaths j t) 0)
    then t else exec_t st !!! j).
  { unfold st'. rewrite state_after_snoc. by apply step_exec_t. }
  split; [lia|]. split.
  - intros Hset. rewrite Hexec in Hset.
    destruct (Np.Rltb (S_at Spaths j t) K) eqn:E; simpl in Hset; [|lia].
    apply Rltb_true in E. split; [|done].
    apply elem_of_itm_paths. split; [lia|done].
  - intros Hotm. apply Rltb_false in Hotm.
    assert (Hne : exec_t st' !!! j <> t).
    { rewrite Hexec, Hotm. simpl. lia. }
    split; [done|]. split.
    + unfold st'. rewrite state_after_snoc, step_intrinsic by done.
      by rewrite Hotm.
    + unfold st' in *. rewrite state_after_snoc in *.
      rewrite step_payoff by done.
      apply Nat.eqb_neq in Hne. by rewrite Hne.
Qed.

(** C8: when no path is in the money at a backward step [t], the step is
    still defined: the regression runs on an empty design matrix and its
    result is stored in [betas[:, t]], the intrinsic values and the exercise
    times are unchanged, every payoff becomes its discounted value, and the
    loop goes on with the remaining steps. *)
Theorem empty_itm_step (Spaths : list (list R)) (pre post : list nat) (t : nat) :
  length Spaths = N -> backward_range = pre ++ t :: post ->
  itm_paths Spaths t = [] ->
  let st := state_after Spaths pre in
  let st' := state_after Spaths (pre ++ [t]) in
  design Spaths t = [] /\
  betas st' = <[t := lstsq [] []]> (betas st) /\
  intrinsic st' = intrinsic st /\
  exec_t st' = exec_t st /\
  payoff st' = discount (payoff st) /\
  backward_induction Spaths = fold_left (backward_step Spaths) post st'.
Proof.
  intros HS Hsplit Hitm st st'.
  destruct (exec_t_bounds Spaths pre _ HS Hsplit) as [(Hi & Hp & He) _].
  fold st in Hi, Hp, He.
  assert (Hstep : st' = backward_step Spaths st t).
  { unfold st'. by rewrite state_after_snoc. }
  split; [unfold design; by rewrite Hitm|].
  rewrite Hstep. unfold backward_step, regress, design. rewrite Hitm. simpl.
  split; [done|]. split; [done|]. split; [done|]. split.
  - apply where3_all_false.
    + apply Forall_fmap, Forall_lookup. intros j e Hje. simpl.
      assert (Hj : (j < N)%nat) by (apply lookup_lt_Some in Hje; lia).
      destruct (exec_t_before_step Spaths pre post t j HS Hj Hsplit) as [_ Hlt].
      fold st in Hlt. rewrite (list_lookup_total_correct _ _ _ Hje) in Hlt.
      apply Nat.eqb_neq. lia.
    + rewrite length_fmap. lia.
    + unfold discount. rewrite !length_fmap. lia.
  - unfold backward_induction, state_after. rewrite Hsplit.
    rewrite (fold_left_app _ pre (t :: post)). simpl.
    fold (state_after Spaths pre). fold st.
    unfold backward_step, regress, design. rewrite Hitm. done.
Qed.

(** ** Payoffs *)

Lemma solver_init_payoff (Spaths : list (list R)) (j : nat) :
  batch_shape Spaths -> (j < N)%nat ->
  payoff (solver_init Spaths) !!! j = Rmax (K - S_at Spaths j nt) 0 /\
  intrinsic (solver_init Spaths) !!! j = Rmax (K - S_at Spaths j nt) 0.
Proof.
  intros [HS Hrows] Hj. simpl.
  assert (Hj' : (j < length Spaths)%nat) by lia.
  destruct (lookup_lt_is_Some_2 Spaths j Hj') as [row Hrow].
  assert (Hlen : length row = S nt).
  { eapply (proj1 (Forall_lookup _ _) Hrows); done. }
  assert (Hval : Np.put_value K (Np.col_last Spaths) !!! j = Rmax (K - S_at Spaths j nt) 0).
  { apply list_lookup_total_correct.
    unfold Np.put_value, Np.col_last, S_at.
    rewrite !list_lookup_fmap, Hrow. simpl.
    rewrite (list_lookup_total_correct _ _ _ Hrow).
    rewrite last_lookup, Hlen. simpl.
    rewrite (list_lookup_lookup_total_lt row nt) by lia. done. }
  done.
Qed.

Lemma exp_pow_INR (x : R) (n : nat) : (exp x ^ n = exp (x * INR n))%R.
Proof.
  induction n as [|n IH].
  - simpl. by rewrite Rmult_0_r, exp_0.
  - rewrite S_INR. simpl. rewrite IH, <- exp_plus. f_equal. lra.
Qed.

(** The state invariant of the backward loop: after [k] steps, that is at
    time [nt - k], a path's payoff is its put value at its exercise time,
    discounted once for every step between the two times. *)
Lemma payoff_invariant (Spaths : list (list R)) (pre post : list nat) :
  batch_shape Spaths -> backward_range = pre ++ post ->
  forall j, (j < N)%nat ->
    let st := state_after Spaths pre in
    let e := exec_t st !!! j in
    (nt - length pre <= e <= nt)%nat /\
    payoff st !!! j =
      (exp (- r * dt) ^ (e - (nt - length pre)) * Rmax (K - S_at Spaths j e) 0)%R.
Proof.
  intros Hshape. assert (HS := proj1 Hshape).
  intros Hsplit.
  apply (backward_loop_ind Spaths (fun k st =>
    shaped st /\ forall j, (j < N)%nat ->
      (nt - k <= (exec_t st !!! j) <= nt)%nat /\
      payoff st !!! j =
        (exp (- r * dt) ^ (exec_t st !!! j - (nt - k)) *
         Rmax (K - S_at Spaths j (exec_t st !!! j)) 0)%R)) in Hsplit.
  - by destruct Hsplit.
  - split; [by apply solver_init_shaped|]. intros j Hj.
    rewrite solver_init_exec_t by done.
    rewrite (proj1 (solver_init_payoff Spaths j Hshape Hj)).
    split; [lia|]. rewrite Nat.sub_0_r, Nat.sub_diag. simpl. lra.
  - intros k st Hk [Hst Hinv]. split; [by apply step_shaped|].
    intros j Hj. destruct (Hinv j Hj) as [Hb Hpay].
    rewrite step_payoff, step_intrinsic, step_exec_t by done.
    destruct (Np.Rltb (S_at Spaths j (nt - 1 - k)) K) eqn:E1; simpl.
    + destruct (Np.Rltb _ (Rmax _ 0)) eqn:E2.
      * rewrite Nat.eqb_refl. split; [lia|].
        replace (nt - 1 - k - (nt - S k))%nat with 0%nat by lia. simpl. lra.
      * assert (Hne : (exec_t st !!! j =? nt - 1 - k)%nat = false)
          by (apply Nat.eqb_neq; lia).
        rewrite Hne, Hpay. split; [lia|].
        replace (exec_t st !!! j - (nt - S k))%nat
          with (S (exec_t st !!! j - (nt - k)))%nat by lia.
        simpl. lra.
    + assert (Hne : (exec_t st !!! j =? nt - 1 - k)%nat = false)
        by (apply Nat.eqb_neq; lia).
      rewrite Hne, Hpay. split; [lia|].
      replace (exec_t st !!! j - (nt - S k))%nat
        with (S (exec_t st !!! j - (nt - k)))%nat by lia.
      simpl. lra.
Qed.

(** C7, amended: at every point of the backward induction, before the loop
    and after each step, a path's payoff is the intrinsic put value at its
    current exercise time discounted by [exp(-r dt)] once for every step
    from the exercise time back to the time of the last step; it is the
    undiscounted intrinsic value for the paths that exercise at that
    step, and in general exactly when the exercise time is that step's
    time, or [r dt = 0], or the intrinsic value is 0. *)
Theorem payoff_is_discounted_intrinsic
    (Spaths : list (list R)) (pre post : list nat) (j : nat) :
  batch_shape Spaths -> (j < N)%nat -> backward_range = pre ++ post ->
  let st := state_after Spaths pre in
  let e := exec_t st !!! j in
  let t := (nt - length pre)%nat in
  (t <= e <= nt)%nat /\
  payoff st !!! j = (exp (- r * dt) ^ (e - t) * Rmax (K - S_at Spaths j e) 0)%R /\
  (e = t -> payoff st !!! j = Rmax (K - S_at Spaths j e) 0) /\
  (payoff st !!! j = Rmax (K - S_at Spaths j e) 0 <->
   e = t \/ (r * dt)%R = 0%R \/ Rmax (K - S_at Spaths j e) 0 = 0%R).
Proof.
  intros Hshape Hj Hsplit st e t.
  destruct (payoff_invariant Spaths pre post Hshape Hsplit j Hj) as [Hb Hpay].
  fold st e t in Hb, Hpay. split; [done|]. split; [done|].
  assert (Hsame : e = t -> payoff st !!! j = Rmax (K - S_at Spaths j e) 0).
  { intros He. rewrite Hpay, He, Nat.sub_diag. simpl. lra. }
  split; [done|]. rewrite Hpay. set (v := Rmax (K - S_at Spaths j e) 0).
  split.
  - intros Heq. destruct (Req_dec v 0) as [Hv|Hv]; [by right; right|].
    assert (Hone : (exp (- r * dt) ^ (e - t) = 1)%R).
    { apply (Rmult_eq_reg_r v); [lra|done]. }
    rewrite exp_pow_INR, <- exp_0 in Hone. apply exp_inv in Hone.
    apply Rmult_integral in Hone as [Hrdt|Hn].
    + right. left. lra.
    + left. change 0%R with (INR 0) in Hn. apply INR_eq in Hn. lia.
  - intros [He|[Hrdt|Hv]].
    + rewrite He, Nat.sub_diag. simpl. lra.
    + replace (- r * dt)%R with 0%R by lra. rewrite exp_0, pow1. lra.
    + rewrite Hv. lra.
Qed.

Lemma discount_nonneg (pay : list R) : nonneg pay -> nonneg (discount pay).
Proof.
  unfold nonneg, discount. intros Hpay. apply Forall_fmap.
  eapply Forall_impl; [exact Hpay|]. intros x Hx. simpl.
  apply Rmult_le_pos; [|done]. apply Rlt_le, exp_pos.
Qed.

Lemma put_value_nonneg (a : list R) : nonneg (Np.put_value K a).
Proof.
  unfold nonneg, Np.put_value. apply Forall_fmap, Forall_forall.
  intros x _. simpl. apply Rmax_r.
Qed.

Lemma step_nonneg (Spaths : list (list R)) (st : ExerciseState) (t : nat) :
  nonneg (intrinsic st) /\ nonneg (payoff st) ->
  nonneg (intrinsic (backward_step Spaths st t)) /\
  nonneg (payoff (backward_step Spaths st t)).
Proof.
  intros [Hi Hp].
  assert (Hi' : nonneg (intrinsic (backward_step Spaths st t))).
  { simpl. apply fancy_set_Forall; [done|apply put_value_nonneg]. }
  split; [done|].
  apply where3_Forall; [done|by apply discount_nonneg].
Qed.

Lemma state_after_nonneg (Spaths : list (list R)) (ts : list nat) :
  nonneg (intrinsic (state_after Spaths ts)) /\ nonneg (payoff (state_after Spaths ts)).
Proof.
  induction ts as [|t ts IH] using rev_ind.
  - split; apply put_value_nonneg.
  - rewrite state_after_snoc. by apply step_nonneg.
Qed.

Lemma price_nonneg (Spaths : list (list R)) : (0 <= price Spaths)%R.
Proof.
  unfold price. apply mean_nonneg, discount_nonneg, state_after_nonneg.
Qed.

Lemma repetition_nonneg (l : list nat) (pg : list R * rng) :
  nonneg pg.1 -> nonneg (fold_left repetition l pg).1.
Proof.
  revert pg. induction l as [|k l IH]; intros [pe g] Hpe; simpl; [done|].
  apply IH. destruct (simulate g) as [Spaths g'] eqn:E. simpl.
  apply Forall_insert; [done|apply price_nonneg].
Qed.

(** C10: for at least one path and one repetition, every payoff is
    nonnegative at every point of the backward induction, so is the cash
    flow discounted from it, every price estimate, and the mean the run
    reports. *)
Theorem payoff_and_price_nonneg :
  (1 <= N)%nat -> (1 <= Rn)%nat ->
  (forall Spaths ts,
     nonneg (payoff (state_after Spaths ts)) /\
     nonneg (discount (payoff (state_after Spaths ts)))) /\
  (forall Spaths, 0 <= price Spaths)%R /\
  nonneg repetitions.1 /\
  exists m s g, run = (Printed m s, g) /\ m = Np.mean repetitions.1 /\ (0 <= m)%R.
Proof.
  intros _ _.
  assert (Hreps : nonneg repetitions.1).
  { apply repetition_nonneg. simpl. apply Forall_replicate. lra. }
  split.
  { intros Spaths ts. destruct (state_after_nonneg Spaths ts) as [_ Hp].
    split; [done|by apply discount_nonneg]. }
  split; [apply price_nonneg|]. split; [done|].
  unfold run. destruct repetitions as [pe g]. simpl in *.
  exists (Np.mean pe), (Np.std pe), g. split; [done|]. split; [done|].
  by apply mean_nonneg.
Qed.

(** ** Path simulation *)

Lemma set_col_shape (i : nat) (v : list R) (M : list (list R)) (n m : nat) :
  length v = n -> length M = n -> Forall (fun row => length row = m) M ->
  length (Np.set_col i v M) = n /\
  Forall (fun row => length row = m) (Np.set_col i v M).
Proof.
  intros Hv HM Hrows. unfold Np.set_col. split.
  - rewrite length_zip_with. lia.
  - apply Forall_lookup. intros j row Hj.
    apply lookup_zip_with_Some in Hj as (row0 & x & -> & Hrow0 & _).
    rewrite length_insert. eapply (proj1 (Forall_lookup _ _) Hrows); done.
Qed.

Lemma set_col_S_at (i i' j : nat) (v : list R) (M : list (list R)) (m : nat) :
  length v = length M -> (j < length M)%nat ->
  Forall (fun row => length row = m) M -> (i < m)%nat ->
  S_at (Np.set_col i v M) j i' = if decide (i' = i) then v !!! j else S_at M j i'.
Proof.
  intros Hv Hj Hrows Hi. unfold S_at, Np.set_col.
  destruct (lookup_lt_is_Some_2 M j Hj) as [row Hrow].
  assert (Hjv : (j < length v)%nat) by lia.
  destruct (lookup_lt_is_Some_2 v j Hjv) as [x Hx].
  assert (Hlen : length row = m).
  { eapply (proj1 (Forall_lookup _ _) Hrows); done. }
  assert (Hnew : zip_with (fun row x => <[i:=x]> row) M v !! j = Some (<[i:=x]> row)).
  { rewrite lookup_zip_with, Hrow, Hx. done. }
  rewrite (list_lookup_total_correct _ _ _ Hnew).
  rewrite (list_lookup_total_correct _ _ _ Hrow).
  rewrite (list_lookup_total_correct _ _ _ Hx).
  destruct (decide (i' = i)) as [->|Hne].
  - apply list_lookup_total_correct, list_lookup_insert_eq. lia.
  - rewrite !list_lookup_total_alt, list_lookup_insert_ne by done. done.
Qed.

Lemma gbm_step_lookup (Sprev : list R) (g j n : nat) :
  length Sprev = n -> (j < n)%nat ->
  gbm_step Sprev (random_normal n g).1 !!! j =
  (Sprev !!! j * gbm_factor (draws (g + j)))%R.
Proof.
  intros Hlen Hj. apply list_lookup_total_correct.
  unfold gbm_step, random_normal. simpl.
  rewrite lookup_zip_with, list_lookup_fmap.
  rewrite (list_lookup_lookup_total_lt Sprev j) by lia.
  rewrite lookup_seq_lt by done. done.
Qed.

Lemma simulate_upto_spec (g : rng) (k : nat) :
  (k <= nt)%nat ->
  let Spaths := (simulate_upto g k).1 in
  batch_shape Spaths /\
  (simulate_upto g k).2 = (g + k * N)%nat /\
  forall j, (j < N)%nat ->
    S_at Spaths j 0 = S0 /\
    forall i, (1 <= i <= k)%nat ->
      S_at Spaths j i =
      (S_at Spaths j (i - 1) * gbm_factor (draws (g + (i - 1) * N + j)))%R.
Proof.
  induction k as [|k IH]; intros Hk.
  - unfold simulate_upto. simpl.
    assert (Hz : length (Np.zeros2 N (nt + 1)) = N /\
                 Forall (fun row => length row = S nt) (Np.zeros2 N (nt + 1))).
    { unfold Np.zeros2, Np.zeros. rewrite length_replicate. split; [done|].
      apply Forall_replicate. rewrite length_replicate. lia. }
    destruct Hz as [Hz1 Hz2].
    split; [|split; [lia|]].
    + apply set_col_shape; [by rewrite length_replicate|done|done].
    + intros j Hj. split; [|intros i Hi; lia].
      rewrite (set_col_S_at 0 0 j _ _ (S nt)); try done; try lia.
      * rewrite decide_True by done.
        apply list_lookup_total_correct, lookup_replicate_2. done.
      * rewrite length_replicate. lia.
  - destruct IH as ([HS Hrows] & Hg & Hpaths); [lia|].
    unfold simulate_upto in *. rewrite seq_S, fold_left_app. simpl.
    destruct (fold_left simulate_body (seq 1 k) _) as [Sk gk] eqn:E.
    simpl in *. subst gk.
    assert (Hcol : length (Np.col (k - 0) Sk) = N).
    { unfold Np.col. by rewrite length_fmap. }
    assert (Hnew : length (gbm_step (Np.col (k - 0) Sk) (draws <$> seq (g + k * N) N)) = N).
    { unfold gbm_step. rewrite length_zip_with, length_fmap, length_seq. lia. }
    split; [|split; [lia|]].
    + apply set_col_shape; done.
    + intros j Hj. destruct (Hpaths j Hj) as [H0 Hrec].
      assert (Hat : forall i', S_at (Np.set_col (S k) (gbm_step (Np.col (k - 0) Sk)
                      (draws <$> seq (g + k * N) N)) Sk) j i' =
                    if decide (i' = S k)
                    then (S_at Sk j k * gbm_factor (draws (g + k * N + j)))%R
                    else S_at Sk j i').
      { intros i'. rewrite (set_col_S_at (S k) i' j _ _ (S nt)); try done; try lia.
        destruct (decide (i' = S k)); [|done].
        change (draws <$> seq (g + k * N) N) with (random_normal N (g + k * N)).1.
        rewrite gbm_step_lookup by done.
        rewrite Nat.sub_0_r, col_lookup_total by lia. done. }
      split.
      * rewrite Hat. by rewrite decide_False by lia.
      * intros i Hi. rewrite !Hat.
        destruct (decide (i = S k)) as [->|Hne].
        { rewrite decide_False by lia. simpl. by rewrite Nat.sub_0_r. }
        rewrite decide_False by lia. apply Hrec. lia.
Qed.

(** C5: the simulated batch has [N] rows of [nt + 1] prices; every path
    starts at [S0], and its price at time [i] in 1..nt is its price at time
    [i - 1] times [exp((r - sigma^2 / 2) dt + sigma sqrt(dt) Z)], where [Z]
    is the draw of that path in the [i]-th call of the generator.  The
    simulation consumes [nt * N] draws. *)
Theorem simulate_gbm (g : rng) :
  let Spaths := (simulate g).1 in
  (length Spaths = N /\ Forall (fun row => length row = (nt + 1)%nat) Spaths) /\
  (simulate g).2 = (g + nt * N)%nat /\
  forall j, (j < N)%nat ->
    S_at Spaths j 0 = S0 /\
    forall i, (1 <= i <= nt)%nat ->
      S_at Spaths j i =
      (S_at Spaths j (i - 1) *
       exp ((r - 0.5 * sigma ^ 2) * dt + sigma * sqrt dt * draws (g + (i - 1) * N + j)))%R.
Proof.
  destruct (simulate_upto_spec g nt (le_n nt)) as ([HS Hrows] & Hg & Hpaths).
  change (simulate_upto g nt) with (simulate g) in *.
  simpl. split; [|split; [done|exact Hpaths]].
  split; [done|]. eapply Forall_impl; [exact Hrows|]. simpl. intros; lia.
Qed.

(** ** Repetitions *)

Lemma simulate_rng (g : rng) : (simulate g).2 = (g + nt * N)%nat.
Proof. by destruct (simulate_upto_spec g nt (le_n nt)) as (_ & Hg & _). Qed.

Lemma repetition_unfold (price_estimate : list R) (g : rng) (repnum : nat) :
  repetition (price_estimate, g) repnum =
  (<[repnum := price (simulate g).1]> price_estimate, (simulate g).2).
Proof. unfold repetition. by destruct (simulate g). Qed.

Lemma repetitions_upto (k : nat) :
  (k <= Rn)%nat ->
  fold_left repetition (seq 0 k) (Np.zeros Rn, 0%nat) =
  ((estimate <$> seq 0 k) ++ replicate (Rn - k) 0%R, (k * (nt * N))%nat).
Proof.
  induction k as [|k IH]; intros Hk.
  - simpl. by rewrite Nat.sub_0_r.
  - rewrite seq_S, fold_left_app, IH by lia. rewrite Nat.add_0_l.
    cbn [fold_left]. rewrite repetition_unfold, simulate_rng. f_equal; [|lia].
    fold (estimate k).
    rewrite fmap_app. simpl. rewrite <- app_assoc. simpl.
    rewrite insert_app_r_alt by (by rewrite length_fmap, length_seq).
    rewrite length_fmap, length_seq, Nat.sub_diag.
    replace (Rn - k)%nat with (S (Rn - S k)) by lia. done.
Qed.

Lemma repetitions_spec :
  repetitions = (estimate <$> seq 0 Rn, (Rn * (nt * N))%nat).
Proof.
  unfold repetitions. rewrite repetitions_upto by done.
  by rewrite Nat.sub_diag, app_nil_r.
Qed.

(** C3, amended: after the [Rn] repetitions the run reports the mean of the
    [Rn] price estimates and their population standard deviation: the
    square root of the sum of the squared deviations from the mean divided
    by [Rn]. *)
Theorem reports_mean_and_population_std :
  let ests := estimate <$> seq 0 Rn in
  length ests = Rn /\
  repetitions.1 = ests /\
  run.1 =
    Printed (Np.sum ests / INR Rn)
      (sqrt (Np.sum ((fun x => (x - Np.sum ests / INR Rn) ^ 2) <$> ests) / INR Rn))%R.
Proof.
  intros ests. unfold run. rewrite repetitions_spec. fold ests.
  assert (Hlen : length ests = Rn) by (unfold ests; by rewrite length_fmap, length_seq).
  split; [done|]. split; [done|]. simpl.
  unfold Np.std, Np.var, Np.mean. rewrite Hlen. simpl INR. by rewrite Rminus_0_r.
Qed.


(** ** Zero volatility and zero rate *)

Lemma sum_nonneg_zero (a : list R) :
  nonneg a -> (Np.sum a <= 0)%R -> Forall (fun x => x = 0%R) a.
Proof.
  induction 1 as [|x a Hx Ha IH]; intros Hsum; [done|].
  pose proof (sum_nonneg a Ha) as Hpos.
  change (Np.sum (x :: a)) with (x + Np.sum a)%R in Hsum.
  constructor; [lra|]. apply IH. lra.
Qed.

Lemma rss_replicate (m : nat) (x : vec3) (c : R) (b : vec3) :
  rss (replicate m x) (replicate m c) b = (INR m * (dot3 x b - c) ^ 2)%R.
Proof. unfold rss. by rewrite zip_with_replicate, sum_replicate. Qed.

Section ZeroVolZeroRate.

Hypothesis sigma_zero : sigma = 0%R.
Hypothesis r_zero : r = 0%R.
Hypothesis one_path : (1 <= N)%nat.

(** [lstsq] returns a minimiser of the residual sum of squares. *)
Hypothesis lstsq_least_squares :
  forall X y b, length X = length y -> (rss X y (lstsq X y) <= rss X y b)%R.

Lemma gbm_factor_one (z : R) : gbm_factor z = 1%R.
Proof.
  unfold gbm_factor. rewrite sigma_zero, r_zero.
  replace ((0 - 0.5 * 0 ^ 2) * dt + 0 * sqrt dt * z)%R with 0%R by (simpl; lra).
  apply exp_0.
Qed.

Lemma discount_factor_one : exp (- r * dt) = 1%R.
Proof. rewrite r_zero. replace (- 0 * dt)%R with 0%R by lra. apply exp_0. Qed.

Lemma simulate_constant (g : rng) (j i : nat) :
  (j < N)%nat -> (i <= nt)%nat -> S_at (simulate g).1 j i = S0.
Proof.
  intros Hj. destruct (simulate_upto_spec g nt (le_n nt)) as (_ & _ & Hpaths).
  change (simulate_upto g nt) with (simulate g) in Hpaths.
  destruct (Hpaths j Hj) as [H0 Hrec].
  induction i as [|i IH]; intros Hi; [done|].
  rewrite Hrec by lia. simpl. rewrite Nat.sub_0_r, IH by lia.
  rewrite gbm_factor_one. lra.
Qed.

(** On a constant batch with all payoffs equal to [K - S0], the regression
    of an in-the-money step fits the payoffs exactly. *)
Lemma fitted_constant (Spaths : list (list R)) (st : ExerciseState) (t : nat) :
  constant_batch Spaths -> shaped st -> (t <= nt)%nat -> (S0 < K)%R ->
  (forall j, (j < N)%nat -> payoff st !!! j = (K - S0)%R) ->
  fitted Spaths st t S0 = (K - S0)%R.
Proof.
  intros [[HS Hrows] Hconst] (Hi & Hp & He) Ht Hitm Hpay.
  set (itm := itm_paths Spaths t).
  assert (Hin : forall j, j ∈ itm -> (j < N)%nat).
  { intros j Hj. apply elem_of_itm_paths in Hj as [? _]. lia. }
  assert (HX : design Spaths t = replicate (length itm) (design_row S0)).
  { unfold design, Np.fancy_get. fold itm. rewrite <- list_fmap_compose.
    apply const_fmap. intros i j Hj. apply list_elem_of_lookup_2, Hin in Hj. simpl.
    rewrite col_lookup_total by lia. by rewrite Hconst. }
  assert (Hy : Np.fancy_get (discount (payoff st)) itm = replicate (length itm) (K - S0)%R).
  { unfold Np.fancy_get. apply const_fmap. intros i j Hj.
    apply list_elem_of_lookup_2, Hin in Hj.
    rewrite discount_lookup, discount_factor_one, Hpay by lia. lra. }
  assert (Hm : (1 <= length itm)%nat).
  { assert (H0 : 0%nat ∈ itm).
    { apply elem_of_itm_paths. split; [lia|]. rewrite Hconst; [done|lia|done]. }
    destruct itm; [inversion H0|simpl; lia]. }
  unfold fitted, regress. fold itm. rewrite HX, Hy.
  set (X := replicate (length itm) (design_row S0)).
  set (y := replicate (length itm) (K - S0)%R).
  pose proof (lstsq_least_squares X y (K - S0, 0, 0)%R) as Hls.
  unfold X, y in Hls. rewrite !rss_replicate in Hls.
  specialize (Hls ltac:(by rewrite !length_replicate)).
  fold X y in Hls |- *.
  assert (Hdot : dot3 (design_row S0) (K - S0, 0, 0)%R = (K - S0)%R).
  { unfold dot3, design_row. lra. }
  rewrite Hdot in Hls.
  assert (HINR : (1 <= INR (length itm))%R).
  { change 1%R with (INR 1). by apply le_INR. }
  set (f := dot3 (design_row S0) (lstsq X y)) in *.
  replace (K - S0 - (K - S0))%R with 0%R in Hls by lra.
  rewrite pow_i, Rmult_0_r in Hls by lia.
  pose proof (pow2_ge_0 (f - (K - S0))) as Hsq.
  assert (Hzero : ((f - (K - S0)) ^ 2 = 0)%R) by nra.
  destruct (Req_dec (f - (K - S0)) 0) as [?|Hne]; [lra|].
  by apply (pow_nonzero _ 2) in Hne.
Qed.

(** The backward loop on a constant batch: no path ever exercises early
    and every payoff stays [max(K - S0, 0)]. *)
Lemma constant_batch_invariant (Spaths : list (list R)) (pre post : list nat) :
  constant_batch Spaths -> backward_range = pre ++ post ->
  shaped (state_after Spaths pre) /\
  forall j, (j < N)%nat ->
    exec_t (state_after Spaths pre) !!! j = nt /\
    payoff (state_after Spaths pre) !!! j = Rmax (K - S0) 0.
Proof.
  intros Hbatch. assert (Hbatch' := Hbatch). destruct Hbatch' as [Hshape Hconst].
  assert (HS := proj1 Hshape).
  apply (backward_loop_ind Spaths (fun k st =>
    shaped st /\ forall j, (j < N)%nat ->
      exec_t st !!! j = nt /\ payoff st !!! j = Rmax (K - S0) 0)).
  - split; [by apply solver_init_shaped|]. intros j Hj.
    rewrite solver_init_exec_t by done.
    rewrite (proj1 (solver_init_payoff Spaths j Hshape Hj)).
    by rewrite Hconst.
  - intros k st Hk [Hst Hinv]. split; [by apply step_shaped|].
    intros j Hj. destruct (Hinv j Hj) as [He Hpay].
    assert (Hexec : exec_t (backward_step Spaths st (nt - 1 - k)) !!! j = nt).
    { rewrite step_exec_t by done. rewrite Hconst by (done || lia).
      destruct (Np.Rltb S0 K) eqn:E1; simpl; [|done].
      apply Rltb_true in E1.
      rewrite fitted_constant; try done; try lia.
      - rewrite Rmax_left by lra.
        assert (Np.Rltb (K - S0) (K - S0) = false) as -> by (apply Rltb_false; lra).
        done.
      - intros j' Hj'. destruct (Hinv j' Hj') as [_ ->]. apply Rmax_left. lra. }
    split; [done|].
    rewrite step_payoff, Hexec by done.
    assert ((nt =? nt - 1 - k)%nat = false) as -> by (apply Nat.eqb_neq; lia).
    rewrite discount_factor_one, Hpay. lra.
Qed.

Lemma constant_batch_price (Spaths : list (list R)) :
  constant_batch Spaths -> price Spaths = Rmax (K - S0) 0.
Proof.
  intros Hbatch.
  destruct (constant_batch_invariant Spaths backward_range [] Hbatch) as [Hst Hinv].
  { by rewrite app_nil_r. }
  unfold price, backward_induction.
  destruct Hst as (_ & Hp & _).
  assert (Hall : discount (payoff (state_after Spaths backward_range)) =
                 replicate N (Rmax (K - S0) 0)).
  { symmetry. apply replicate_as_Forall. split.
    - unfold discount. by rewrite length_fmap.
    - apply Forall_lookup. intros j x Hjx.
      assert (Hj : (j < N)%nat).
      { apply lookup_lt_Some in Hjx. unfold discount in Hjx.
        rewrite length_fmap in Hjx. lia. }
      apply list_lookup_total_correct in Hjx. rewrite <- Hjx.
      rewrite discount_lookup, discount_factor_one by lia.
      destruct (Hinv j Hj) as [_ ->]. lra. }
  rewrite Hall. by apply mean_replicate.
Qed.

End ZeroVolZeroRate.

(** C1: with [sigma = 0] and [r = 0], at least one path, and [lstsq]
    returning a least-squares solution, every simulated path is constant at
    [S0], no path exercises before maturity, and the price estimate of the
    batch is exactly [max(K - S0, 0)]. *)
Theorem zero_vol_zero_rate_price (g : rng) :
  sigma = 0%R -> r = 0%R -> (1 <= N)%nat ->
  (forall X y b, length X = length y -> (rss X y (lstsq X y) <= rss X y b)%R) ->
  let Spaths := (simulate g).1 in
  (forall j i, (j < N)%nat -> (i <= nt)%nat -> S_at Spaths j i = S0) /\
  (forall j, (j < N)%nat -> exec_t (backward_induction Spaths) !!! j = nt) /\
  price Spaths = Rmax (K - S0) 0.
Proof.
  intros Hsigma Hr HN Hls Spaths.
  assert (Hbatch : constant_batch Spaths).
  { split.
    - by destruct (simulate_upto_spec g nt (le_n nt)) as (Hshape & _).
    - intros j i Hj Hi. by apply simulate_constant. }
  split; [apply Hbatch|]. split.
  - intros j Hj.
    destruct (constant_batch_invariant Hr HN Hls Spaths backward_range [] Hbatch) as [_ Hinv].
    { by rewrite app_nil_r. }
    by destruct (Hinv j Hj).
  - by apply constant_batch_price.
Qed.

(** ** The simulated paths in closed form *)

Lemma simulate_S_at (g : rng) (j i : nat) :
  (j < N)%nat -> (i <= nt)%nat ->
  S_at (simulate g).1 j i =
  (S0 * exp ((r - 0.5 * sigma ^ 2) * dt * INR i + sigma * sqrt dt * draw_sum g j i))%R.
Proof.
  intros Hj. destruct (simulate_upto_spec g nt (le_n nt)) as (_ & _ & Hpaths).
  change (simulate_upto g nt) with (simulate g) in Hpaths.
  destruct (Hpaths j Hj) as [H0 Hrec].
  induction i as [|i IH]; intros Hi.
  - rewrite H0. simpl. rewrite Rmult_0_r, Rmult_0_r, Rplus_0_r, exp_0. lra.
  - rewrite Hrec by lia. replace (S i - 1)%nat with i by lia.
    rewrite IH by lia. unfold gbm_factor. rewrite Rmult_assoc, <- exp_plus.
    f_equal. f_equal. rewrite S_INR. simpl. lra.
Qed.

Lemma simulate_shape (g : rng) : batch_shape (simulate g).1.
Proof. by destruct (simulate_upto_spec g nt (le_n nt)) as (Hshape & _). Qed.

(** X1: the price of path [j] at time [i] is [S0] times the exponential
    of the drift over [i] steps plus the volatility times the sum of the
    path's first [i] draws; the [k]-th of them is the draw number
    [g + k N + j] of the generator. *)
Theorem gbm_closed_form (g : rng) (j i : nat) :
  (j < N)%nat -> (i <= nt)%nat ->
  S_at (simulate g).1 j i =
    (S0 * exp ((r - 0.5 * sigma ^ 2) * dt * INR i
               + sigma * sqrt dt * draw_sum g j i))%R /\
  (forall k, draw_sum g j (S k) = draw_sum g j k + draws (g + k * N + j))%R /\
  draw_sum g j 0 = 0%R.
Proof.
  intros Hj Hi. split; [by apply simulate_S_at|]. split; [intros k|]; reflexivity.
Qed.

(** X2: for [dt >= 0], where the square root is defined, the simulated
    prices have the sign of [S0]: all positive when [S0 > 0], all zero when
    [S0 = 0], all negative when [S0 < 0]. *)
Theorem simulated_prices_sign (g : rng) (j i : nat) :
  (0 <= dt)%R -> (j < N)%nat -> (i <= nt)%nat ->
  ((0 < S0)%R -> (0 < S_at (simulate g).1 j i)%R) /\
  (S0 = 0%R -> S_at (simulate g).1 j i = 0%R) /\
  ((S0 < 0)%R -> (S_at (simulate g).1 j i < 0)%R).
Proof.
  intros _ Hj Hi. rewrite simulate_S_at by done.
  set (x := exp _). assert (Hx : (0 < x)%R) by apply exp_pos.
  split; [|split]; intros H; nra.
Qed.

(** ** The inputs of the regression *)

Lemma where_from_increasing (c : list bool) (k : nat) :
  increasing (Np.where_from k c).
Proof.
  revert k. induction c as [|b c IH]; intros k; simpl.
  - intros a b' x y _ Hx. done.
  - destruct b; [|apply IH].
    intros [|a] [|b'] x y Hab Hx Hy; simplify_eq/=; try lia.
    + apply list_elem_of_lookup_2, elem_of_where_from in Hy as [Hy _]. lia.
    + eapply (IH (S k) a b'); [lia|done|done].
Qed.

Lemma where_from_length (c : list bool) (k : nat) :
  (length (Np.where_from k c) <= length c)%nat.
Proof.
  revert k. induction c as [|b c IH]; intros k; simpl; [done|].
  specialize (IH (S k)). destruct b; simpl; lia.
Qed.

(** X3: the index array of the in-the-money paths is strictly increasing
    and holds exactly the paths below the strike, all of them in range; the
    design matrix has the row [1, s, s^2] and the target the discounted
    payoff of each of these paths, in that order, so that [lstsq] is
    called with as many rows as targets. *)
Theorem regression_inputs (Spaths : list (list R)) (st : ExerciseState) (t : nat) :
  length Spaths = N -> length (payoff st) = N ->
  let itm := itm_paths Spaths t in
  let y := Np.fancy_get (discount (payoff st)) itm in
  increasing itm /\
  (forall j, j ∈ itm <-> (j < N)%nat /\ (S_at Spaths j t < K)%R) /\
  (length itm <= N)%nat /\
  design Spaths t = (fun j => (1, S_at Spaths j t, S_at Spaths j t ^ 2)%R) <$> itm /\
  y = (fun j => exp (- r * dt) * payoff st !!! j)%R <$> itm /\
  regress Spaths st t = lstsq (design Spaths t) y /\
  length (design Spaths t) = length y.
Proof.
  intros HS Hp itm y.
  assert (Hin : forall j, j ∈ itm <-> (j < N)%nat /\ (S_at Spaths j t < K)%R).
  { intros j. unfold itm. rewrite elem_of_itm_paths, HS. done. }
  split; [apply where_from_increasing|]. split; [done|]. split.
  { unfold itm, itm_paths, Np.where1.
    etrans; [apply where_from_length|].
    unfold Np.col. by rewrite !length_fmap, HS. }
  split.
  { unfold design, Np.fancy_get. fold itm. rewrite <- list_fmap_compose.
    apply list_fmap_ext. intros i j Hj. apply list_elem_of_lookup_2, Hin in Hj as [Hj _].
    simpl. rewrite col_lookup_total by lia. done. }
  split.
  { unfold y, Np.fancy_get. apply list_fmap_ext. intros i j Hj.
    apply list_elem_of_lookup_2, Hin in Hj as [Hj _].
    by rewrite discount_lookup by lia. }
  split; [done|].
  unfold y, design, Np.fancy_get. by rewrite !length_fmap.
Qed.

(** X14: the regression of a step reads the payoffs of the in-the-money
    paths only: two states whose payoffs agree on these paths get the same
    coefficients, whatever the payoffs of the other paths, the intrinsic
    values and the exercise times are. *)
Theorem regression_ignores_otm
    (Spaths : list (list R)) (st st' : ExerciseState) (t : nat) :
  length Spaths = N -> length (payoff st) = N -> length (payoff st') = N ->
  (forall j, (j < N)%nat -> (S_at Spaths j t < K)%R ->
     payoff st !!! j = payoff st' !!! j) ->
  regress Spaths st t = regress Spaths st' t /\
  forall s, fitted Spaths st t s = fitted Spaths st' t s.
Proof.
  intros HS Hp Hp' Hagree.
  assert (Hreg : regress Spaths st t = regress Spaths st' t).
  { unfold regress, Np.fancy_get. f_equal.
    apply list_fmap_ext. intros i j Hj.
    apply list_elem_of_lookup_2, elem_of_itm_paths in Hj as [Hj Hs].
    rewrite !discount_lookup by lia. rewrite Hagree by (lia || done). done. }
  split; [done|]. intros s. unfold fitted. by rewrite Hreg.
Qed.

(** ** The regression record *)

Lemma betas_length (Spaths : list (list R)) (ts : list nat) :
  length (betas (state_after Spaths ts)) = nt.
Proof.
  induction ts as [|t ts IH] using rev_ind.
  - simpl. by rewrite length_replicate.
  - rewrite state_after_snoc. simpl. by rewrite length_insert.
Qed.

Lemma betas_untouched (Spaths : list (list R)) (ts : list nat) (st : ExerciseState) (i : nat) :
  i ∉ ts ->
  betas (fold_left (backward_step Spaths) ts st) !! i = betas st !! i.
Proof.
  revert st. induction ts as [|t ts IH]; intros st Hi; simpl; [done|].
  rewrite IH by (intros ?; apply Hi; by right).
  simpl. apply list_lookup_insert_ne. intros ->. apply Hi. by left.
Qed.

Lemma backward_range_elem (t : nat) :
  t ∈ backward_range -> (1 <= t <= nt - 1)%nat.
Proof.
  intros Ht. apply list_elem_of_lookup_1 in Ht as [i Hi].
  apply backward_range_lookup in Hi. lia.
Qed.

Lemma backward_range_later (pre post : list nat) (t : nat) :
  backward_range = pre ++ t :: post -> forall u, u ∈ post -> (1 <= u < t)%nat.
Proof.
  intros Hsplit u Hu.
  destruct (backward_range_split _ _ _ Hsplit) as [-> Hlt].
  apply list_elem_of_lookup_1 in Hu as [i Hi].
  assert (Hidx : backward_range !! (length pre + S i)%nat = Some u).
  { rewrite Hsplit, lookup_app_r by lia.
    replace (length pre + S i - length pre)%nat with (S i) by lia. done. }
  apply backward_range_lookup in Hidx. lia.
Qed.

(** X4: when the backward loop ends, [betas] has [nt] columns; the column
    of each loop time [t] holds the coefficients of the regression run at
    that step, on the state the loop had reached then, and no later step
    overwrites it; every other column, column 0 among them, is still
    zero. *)
Theorem betas_record (Spaths : list (list R)) :
  length (betas (backward_induction Spaths)) = nt /\
  (forall pre t post, backward_range = pre ++ t :: post ->
     betas (backward_induction Spaths) !! t =
     Some (regress Spaths (state_after Spaths pre) t)) /\
  (forall i, (i < nt)%nat -> i ∉ backward_range ->
     betas (backward_induction Spaths) !! i = Some (0, 0, 0)%R) /\
  ((1 <= nt)%nat -> betas (backward_induction Spaths) !! 0%nat = Some (0, 0, 0)%R).
Proof.
  assert (Hzero : forall i, (i < nt)%nat -> i ∉ backward_range ->
            betas (backward_induction Spaths) !! i = Some (0, 0, 0)%R).
  { intros i Hi Hnot. unfold backward_induction, state_after.
    rewrite betas_untouched by done. simpl. by apply lookup_replicate_2. }
  split; [apply betas_length|]. split; [|split; [done|]].
  - intros pre t post Hsplit.
    destruct (backward_range_split _ _ _ Hsplit) as [Ht Hlt].
    unfold backward_induction, state_after. rewrite Hsplit.
    rewrite (fold_left_app _ pre (t :: post)). simpl.
    fold (state_after Spaths pre).
    rewrite betas_untouched.
    + simpl. apply list_lookup_insert_eq. rewrite betas_length. lia.
    + intros Hin. apply (backward_range_later _ _ _ Hsplit) in Hin. lia.
  - intros Hnt. apply Hzero; [lia|].
    intros Hin. apply backward_range_elem in Hin. lia.
Qed.

(** ** The exercise time as a stopping rule *)

Lemma steps_before_last : steps_before (nt - 1) = [].
Proof. unfold steps_before. by replace (nt - 1 - (nt - 1))%nat with 0%nat by lia. Qed.

Lemma steps_before_pred (t : nat) :
  (1 <= t <= nt - 1)%nat -> steps_before (t - 1) = steps_before t ++ [t].
Proof.
  intros Ht. unfold steps_before.
  replace (S (t - 1)) with t by lia.
  replace (nt - 1 - (t - 1))%nat with (S (nt - 1 - t)) by lia.
  simpl. by rewrite reverse_cons.
Qed.

Lemma steps_before_zero : steps_before 0 = backward_range.
Proof. unfold steps_before, backward_range. by rewrite Nat.sub_0_r. Qed.

Lemma steps_before_split (t : nat) :
  (1 <= t <= nt - 1)%nat ->
  backward_range = steps_before t ++ t :: reverse (seq 1 (t - 1)).
Proof.
  intros Ht. unfold backward_range, steps_before.
  replace (nt - 1)%nat with ((t - 1) + S (nt - 1 - t))%nat at 1 by lia.
  rewrite seq_app, reverse_app.
  replace (1 + (t - 1))%nat with t by lia. simpl.
  by rewrite reverse_cons, <- app_assoc.
Qed.

(** The step at time [t] sets the exercise time of a path to [t] when its
    exercise test holds, and keeps it otherwise. *)
Lemma exec_t_step_back (Spaths : list (list R)) (t j : nat) :
  length Spaths = N -> (j < N)%nat -> (1 <= t <= nt - 1)%nat ->
  exec_t (state_after Spaths (steps_before (t - 1))) !!! j =
  if exercise_test Spaths t j then t
  else exec_t (state_after Spaths (steps_before t)) !!! j.
Proof.
  intros HS Hj Ht.
  destruct (exec_t_bounds Spaths (steps_before t) _ HS (steps_before_split t Ht))
    as [Hst _].
  rewrite steps_before_pred, state_after_snoc by done.
  by rewrite step_exec_t.
Qed.

(** After the steps down to [t + 1], a path's exercise time is the first
    time after [t] at which its exercise test holds, or [nt]. *)
Lemma first_firing_from (Spaths : list (list R)) (j d : nat) :
  length Spaths = N -> (j < N)%nat -> (1 <= nt)%nat -> (d <= nt - 1)%nat ->
  let t := (nt - 1 - d)%nat in
  let e := exec_t (state_after Spaths (steps_before t)) !!! j in
  (e = nt /\ forall u, (t < u <= nt - 1)%nat -> exercise_test Spaths u j = false) \/
  ((t < e <= nt - 1)%nat /\ exercise_test Spaths e j = true /\
   forall u, (t < u < e)%nat -> exercise_test Spaths u j = false).
Proof.
  intros HS Hj Hnt. induction d as [|d IH]; intros Hd.
  - simpl. rewrite Nat.sub_0_r, steps_before_last.
    left. split; [by apply solver_init_exec_t|]. intros u Hu. lia.
  - specialize (IH ltac:(lia)). simpl in IH.
    set (t := (nt - 1 - d)%nat) in *.
    replace (nt - 1 - S d)%nat with (t - 1)%nat by lia.
    assert (Ht : (1 <= t <= nt - 1)%nat) by lia.
    simpl. rewrite exec_t_step_back by done.
    destruct (exercise_test Spaths t j) eqn:E.
    + right. split; [lia|]. split; [done|]. intros u Hu. lia.
    + destruct IH as [[He Hnone]|(He & Hfire & Hnone)].
      * left. split; [done|]. intros u Hu.
        destruct (decide (u = t)) as [->|Hne]; [done|]. apply Hnone. lia.
      * right. split; [lia|]. split; [done|]. intros u Hu.
        destruct (decide (u = t)) as [->|Hne]; [done|]. apply Hnone. lia.
Qed.

Lemma first_firing (Spaths : list (list R)) (j : nat) :
  length Spaths = N -> (j < N)%nat -> (1 <= nt)%nat ->
  let e := exec_t (backward_induction Spaths) !!! j in
  (e = nt /\ forall u, (1 <= u <= nt - 1)%nat -> exercise_test Spaths u j = false) \/
  ((1 <= e <= nt - 1)%nat /\ exercise_test Spaths e j = true /\
   forall u, (1 <= u < e)%nat -> exercise_test Spaths u j = false).
Proof.
  intros HS Hj Hnt.
  pose proof (first_firing_from Spaths j (nt - 1) HS Hj Hnt (le_n _)) as H.
  cbv zeta in H. replace (nt - 1 - (nt - 1))%nat with 0%nat in H by lia.
  rewrite steps_before_zero in H. cbv zeta. unfold backward_induction.
  destruct H as [[He Hnone]|(He & Hfire & Hnone)].
  - left. split; [done|]. intros u Hu. apply Hnone. lia.
  - right. split; [lia|]. split; [done|]. intros u Hu. apply Hnone. lia.
Qed.

(** X5: when the backward loop ends, the exercise time of a path is the
    earliest loop time at which the path passed the exercise test (in the
    money, and fitted continuation value below intrinsic value, on the
    state the loop had reached at that time); it is [nt] when the path
    passed the test at no time. *)
Theorem exercise_time_is_first_firing (Spaths : list (list R)) (j : nat) :
  length Spaths = N -> (j < N)%nat -> (1 <= nt)%nat ->
  let e := exec_t (backward_induction Spaths) !!! j in
  (e = nt /\ forall u, (1 <= u <= nt - 1)%nat -> exercise_test Spaths u j = false) \/
  ((1 <= e <= nt - 1)%nat /\ exercise_test Spaths e j = true /\
   forall u, (1 <= u < e)%nat -> exercise_test Spaths u j = false).
Proof. apply first_firing. Qed.

(** ** The price estimate as a mean of discounted exercise values *)

Lemma list_as_fmap_seq (l : list R) : l = (fun j => l !!! j) <$> seq 0 (length l).
Proof.
  apply (list_eq_same_length _ _ (length l)).
  - by rewrite length_fmap, length_seq.
  - done.
  - intros i x y Hi Hx Hy. rewrite list_lookup_fmap, lookup_seq_lt in Hy by done.
    simpl in Hy. apply list_lookup_total_correct in Hx. congruence.
Qed.

Lemma backward_range_length : length backward_range = (nt - 1)%nat.
Proof. unfold backward_range. by rewrite length_reverse, length_seq. Qed.

(** The cash flow of a path discounted to time 0, at the end of the loop. *)
Lemma final_cash_flow (Spaths : list (list R)) (j : nat) :
  batch_shape Spaths -> (1 <= nt)%nat -> (j < N)%nat ->
  discount (payoff (backward_induction Spaths)) !!! j = exercise_value Spaths j.
Proof.
  intros Hshape Hnt Hj. unfold backward_induction, exercise_value.
  destruct (payoff_invariant Spaths backward_range [] Hshape (eq_sym (app_nil_r _)) j Hj)
    as [Hb Hpay].
  destruct (exec_t_bounds Spaths backward_range [] (proj1 Hshape) (eq_sym (app_nil_r _)))
    as [(_ & Hp & _) _].
  rewrite backward_range_length in Hb, Hpay.
  unfold backward_induction. cbv zeta in Hb, Hpay.
  set (e := exec_t (state_after Spaths backward_range) !!! j) in *.
  rewrite discount_lookup, Hpay by lia.
  rewrite <- Rmult_assoc. f_equal.
  replace (- r * dt * INR e)%R with ((- r * dt) * INR e)%R by lra.
  rewrite <- exp_pow_INR.
  replace e with (S (e - (nt - (nt - 1)))) at 2 by lia. done.
Qed.

Lemma price_as_mean (Spaths : list (list R)) :
  batch_shape Spaths -> (1 <= nt)%nat ->
  price Spaths = Np.mean (exercise_value Spaths <$> seq 0 N).
Proof.
  intros Hshape Hnt. unfold price. f_equal.
  destruct (exec_t_bounds Spaths backward_range [] (proj1 Hshape) (eq_sym (app_nil_r _)))
    as [(_ & Hp & _) _].
  assert (Hlen : length (discount (payoff (backward_induction Spaths))) = N).
  { unfold discount, backward_induction. by rewrite length_fmap. }
  rewrite (list_as_fmap_seq (discount _)), Hlen.
  apply list_fmap_ext. intros i j Hj. apply lookup_seq in Hj as [-> Hlt].
  by apply final_cash_flow.
Qed.

(** X6: for [nt >= 1], the price estimate of a batch is the mean over the
    paths of the put value [max(K - S, 0)] at the path's final exercise
    time [e], discounted by [exp(-r dt e)]. *)
Theorem price_is_mean_exercise_value (Spaths : list (list R)) :
  batch_shape Spaths -> (1 <= nt)%nat -> (1 <= N)%nat ->
  price Spaths =
  Np.mean ((fun j =>
              let e := exec_t (backward_induction Spaths) !!! j in
              exp (- r * dt * INR e) * Rmax (K - S_at Spaths j e) 0)%R
           <$> seq 0 N).
Proof. intros Hshape Hnt _. by apply price_as_mean. Qed.

Lemma exercise_test_itm (Spaths : list (list R)) (t j : nat) :
  exercise_test Spaths t j = true ->
  (S_at Spaths j t < K)%R /\
  (fitted Spaths (state_after Spaths (steps_before t)) t (S_at Spaths j t)
   < K - S_at Spaths j t)%R.
Proof.
  unfold exercise_test. intros H. apply andb_prop in H as [H1 H2].
  apply Rltb_true in H1, H2. rewrite Rmax_left in H2 by lra. done.
Qed.

(** X7: a path whose final exercise time [e] is before maturity is
    strictly in the money at [e], its fitted continuation value at [e] was
    strictly below [K - S[j, e]], and its discounted exercise value is
    strictly positive. *)
Theorem early_exercise_pays (Spaths : list (list R)) (j : nat) :
  length Spaths = N -> (j < N)%nat ->
  let e := exec_t (backward_induction Spaths) !!! j in
  (e < nt)%nat ->
  (1 <= e)%nat /\
  (S_at Spaths j e < K)%R /\
  (fitted Spaths (state_after Spaths (steps_before e)) e (S_at Spaths j e)
   < K - S_at Spaths j e)%R /\
  (0 < exercise_value Spaths j)%R.
Proof.
  intros HS Hj e He.
  destruct (first_firing Spaths j HS Hj ltac:(lia)) as [[Hnt _]|(Hb & Hfire & _)].
  { fold e in Hnt. lia. }
  fold e in Hb, Hfire. apply exercise_test_itm in Hfire as [Hitm Hfit].
  split; [lia|]. split; [done|]. split; [done|].
  unfold exercise_value. fold e. rewrite Rmax_left by lra.
  apply Rmult_lt_0_compat; [apply exp_pos|lra].
Qed.

(** X8: a path that is in the money at no time from 1 to [nt] keeps the
    exercise time [nt] and is worth nothing; a batch with no such time on
    any path has the price estimate 0. *)
Theorem never_in_the_money (Spaths : list (list R)) :
  batch_shape Spaths -> (1 <= nt)%nat -> (1 <= N)%nat ->
  (forall j, (j < N)%nat ->
     (forall t, (1 <= t <= nt)%nat -> (K <= S_at Spaths j t)%R) ->
     exec_t (backward_induction Spaths) !!! j = nt /\
     exercise_value Spaths j = 0%R) /\
  ((forall j t, (j < N)%nat -> (1 <= t <= nt)%nat -> (K <= S_at Spaths j t)%R) ->
   price Spaths = 0%R).
Proof.
  intros Hshape Hnt _.
  assert (Hpath : forall j, (j < N)%nat ->
     (forall t, (1 <= t <= nt)%nat -> (K <= S_at Spaths j t)%R) ->
     exec_t (backward_induction Spaths) !!! j = nt /\ exercise_value Spaths j = 0%R).
  { intros j Hj Hotm.
    assert (He : exec_t (backward_induction Spaths) !!! j = nt).
    { destruct (first_firing Spaths j (proj1 Hshape) Hj Hnt) as [[He _]|(Hb & Hfire & _)];
        [done|].
      apply exercise_test_itm in Hfire as [Hitm _].
      cbv zeta in Hb.
      pose proof (Hotm (exec_t (backward_induction Spaths) !!! j) ltac:(lia)). lra. }
    split; [done|]. unfold exercise_value. rewrite He.
    rewrite Rmax_right by (specialize (Hotm nt ltac:(lia)); lra). lra. }
  split; [done|]. intros Hall.
  rewrite price_as_mean by done.
  assert (Hzero : exercise_value Spaths <$> seq 0 N = replicate N 0%R).
  { rewrite (const_fmap (exercise_value Spaths) (seq 0 N) 0%R); [by rewrite length_seq|].
    intros i j Hj. apply lookup_seq in Hj as [-> Hlt].
    apply Hpath; [done|]. intros t Ht. by apply Hall. }
  rewrite Hzero. unfold Np.mean. rewrite sum_replicate. lra.
Qed.

(** ** Bounds on the price estimate *)

Lemma sum_le (a : list R) (c : R) :
  Forall (fun x => x <= c)%R a -> (Np.sum a <= INR (length a) * c)%R.
Proof.
  induction 1 as [|x a Hx _ IH].
  - unfold Np.sum. simpl. lra.
  - change (Np.sum (x :: a)) with (x + Np.sum a)%R.
    change (length (x :: a)) with (S (length a)). rewrite S_INR. lra.
Qed.

Lemma mean_le (a : list R) (c : R) :
  (1 <= length a)%nat -> Forall (fun x => x <= c)%R a -> (Np.mean a <= c)%R.
Proof.
  intros Hlen Ha. unfold Np.mean.
  assert (Hn : (0 < INR (length a))%R) by (apply lt_0_INR; lia).
  apply (Rmult_le_reg_r (INR (length a))); [done|].
  unfold Rdiv. rewrite Rmult_assoc, Rinv_l by lra.
  rewrite Rmult_1_r, Rmult_comm. by apply sum_le.
Qed.

Lemma discount_factor_le_1 : (0 <= r * dt)%R -> (0 < exp (- r * dt) <= 1)%R.
Proof.
  intros Hrdt. split; [apply exp_pos|].
  destruct (Req_dec (r * dt) 0) as [H0|Hne].
  - replace (- r * dt)%R with 0%R by lra. rewrite exp_0. lra.
  - rewrite <- exp_0. apply Rlt_le, exp_increasing. lra.
Qed.

(** On a batch of nonnegative prices the price estimate is at most the
    strike. *)
Lemma price_le_strike (Spaths : list (list R)) :
  batch_shape Spaths -> (1 <= N)%nat -> (0 <= K)%R -> (0 <= r * dt)%R ->
  (forall j i, (j < N)%nat -> (i <= nt)%nat -> (0 <= S_at Spaths j i)%R) ->
  (price Spaths <= K)%R.
Proof.
  intros Hshape HN HK Hrdt Hpos. unfold price.
  destruct (exec_t_bounds Spaths backward_range [] (proj1 Hshape) (eq_sym (app_nil_r _)))
    as [(_ & Hp & _) _].
  destruct (discount_factor_le_1 Hrdt) as [Hd0 Hd1].
  apply mean_le.
  { unfold discount, backward_induction. rewrite length_fmap. lia. }
  apply Forall_lookup. intros j x Hjx.
  assert (Hj : (j < N)%nat).
  { apply lookup_lt_Some in Hjx. unfold discount, backward_induction in Hjx.
    rewrite length_fmap in Hjx. lia. }
  apply list_lookup_total_correct in Hjx. subst x.
  unfold backward_induction. rewrite discount_lookup by lia.
  destruct (payoff_invariant Spaths backward_range [] Hshape (eq_sym (app_nil_r _)) j Hj)
    as [Hb Hpay].
  cbv zeta in Hb, Hpay. rewrite Hpay.
  set (e := exec_t (state_after Spaths backward_range) !!! j) in *.
  set (n := (e - (nt - length backward_range))%nat).
  assert (Hpow : (0 <= exp (- r * dt) ^ n <= 1)%R).
  { split; [apply pow_le; lra|]. rewrite <- (pow1 n). apply pow_incr. lra. }
  assert (Hv : (0 <= Rmax (K - S_at Spaths j e) 0 <= K)%R).
  { split; [apply Rmax_r|]. apply Rmax_lub; [|done].
    specialize (Hpos j e Hj ltac:(lia)). lra. }
  set (v := Rmax _ 0) in *. set (p := (exp (- r * dt) ^ n)%R) in *.
  set (d := exp (- r * dt)) in *.
  assert (0 <= p * v <= K)%R by nra. nra.
Qed.

(** X9: with [S0 >= 0], [K >= 0], [dt >= 0], [r dt >= 0] and at least one
    path, every price estimate lies between 0 and the strike, and so does
    the mean the run reports over at least one repetition. *)
Theorem price_between_zero_and_strike :
  (0 <= S0)%R -> (0 <= K)%R -> (0 <= dt)%R -> (0 <= r * dt)%R -> (1 <= N)%nat ->
  (forall g, 0 <= price (simulate g).1 <= K)%R /\
  ((1 <= Rn)%nat ->
   exists price_mean price_std,
     run.1 = Printed price_mean price_std /\ (0 <= price_mean <= K)%R).
Proof.
  intros HS0 HK _ Hrdt HN.
  assert (Hprice : forall g, (0 <= price (simulate g).1 <= K)%R).
  { intros g. split; [apply price_nonneg|].
    apply price_le_strike; try done; [apply simulate_shape|].
    intros j i Hj Hi. rewrite simulate_S_at by done.
    apply Rmult_le_pos; [done|]. apply Rlt_le, exp_pos. }
  split; [done|]. intros HRn.
  unfold run. rewrite repetitions_spec. simpl.
  eexists _, _. split; [done|]. split.
  - apply mean_nonneg, Forall_fmap, Forall_forall. intros k _. apply Hprice.
  - apply mean_le; [by rewrite length_fmap, length_seq|].
    apply Forall_fmap, Forall_forall. intros k _. apply Hprice.
Qed.

(** ** A single time step *)

Lemma mean_scale {A : Type} (c : R) (f : A -> R) (l : list A) :
  Np.mean ((fun x => c * f x)%R <$> l) = (c * Np.mean (f <$> l))%R.
Proof.
  unfold Np.mean. rewrite !length_fmap.
  assert (Hsum : Np.sum ((fun x => c * f x)%R <$> l) = (c * Np.sum (f <$> l))%R).
  { induction l as [|x l IH]; [unfold Np.sum; simpl; lra|].
    change (Np.sum ((fun x => c * f x)%R <$> (x :: l)))
      with (c * f x + Np.sum ((fun x => c * f x)%R <$> l))%R.
    change (Np.sum (f <$> (x :: l))) with (f x + Np.sum (f <$> l))%R.
    rewrite IH. lra. }
  rewrite Hsum. unfold Rdiv. lra.
Qed.

(** X10: with a single time step the loop body never runs: every exercise
    time is 1, and the price estimate is the mean put value at maturity
    discounted once. *)
Theorem single_step_price (Spaths : list (list R)) :
  nt = 1%nat -> batch_shape Spaths -> (1 <= N)%nat ->
  backward_range = [] /\
  (forall j, (j < N)%nat -> exec_t (backward_induction Spaths) !!! j = 1%nat) /\
  price Spaths =
    (exp (- r * dt) * Np.mean ((fun j => Rmax (K - S_at Spaths j 1) 0) <$> seq 0 N))%R.
Proof.
  intros Hnt Hshape HN.
  assert (Hrange : backward_range = []).
  { unfold backward_range. by rewrite Hnt. }
  assert (Hexec : forall j, (j < N)%nat -> exec_t (backward_induction Spaths) !!! j = 1%nat).
  { intros j Hj. unfold backward_induction. rewrite Hrange.
    unfold state_after. simpl fold_left. by rewrite solver_init_exec_t. }
  split; [done|]. split; [done|].
  rewrite price_as_mean by (done || lia).
  rewrite <- mean_scale. f_equal. apply list_fmap_ext. intros i j Hj.
  apply lookup_seq in Hj as [-> Hlt]. unfold exercise_value.
  rewrite Hexec by done. simpl INR. by rewrite Rmult_1_r.
Qed.

(** ** Zero volatility *)

Lemma batch_ext (A B : list (list R)) :
  batch_shape A -> batch_shape B ->
  (forall j i, (j < N)%nat -> (i <= nt)%nat -> S_at A j i = S_at B j i) ->
  A = B.
Proof.
  intros [HA HrA] [HB HrB] Heq.
  apply (list_eq_same_length _ _ N); [done|done|].
  intros j rowA rowB Hj HjA HjB.
  assert (HlA : length rowA = S nt) by (eapply (proj1 (Forall_lookup _ _) HrA); done).
  assert (HlB : length rowB = S nt) by (eapply (proj1 (Forall_lookup _ _) HrB); done).
  apply (list_eq_same_length _ _ (S nt)); [done|done|].
  intros i x y Hi Hx Hy.
  specialize (Heq j i Hj ltac:(lia)). unfold S_at in Heq.
  rewrite (list_lookup_total_correct _ _ _ HjA) in Heq.
  rewrite (list_lookup_total_correct _ _ _ HjB) in Heq.
  rewrite (list_lookup_total_correct _ _ _ Hx) in Heq.
  rewrite (list_lookup_total_correct _ _ _ Hy) in Heq. done.
Qed.

Lemma std_replicate (n : nat) (x : R) : (1 <= n)%nat -> Np.std (replicate n x) = 0%R.
Proof.
  intros Hn. unfold Np.std, Np.var. rewrite mean_replicate by done.
  rewrite fmap_replicate, sum_replicate, length_replicate.
  replace (INR n * (x - x) ^ 2 / (INR n - INR 0))%R with 0%R; [apply sqrt_0|].
  simpl. unfold Rdiv. lra.
Qed.

(** X11: with [sigma = 0], [dt >= 0], at least one path and at least one
    repetition, the draws do not matter: every path of every repetition is
    [S0 exp(r dt i)], all repetitions give the same price estimate, and the
    run reports that estimate with the standard deviation 0. *)
Theorem zero_volatility_run :
  sigma = 0%R -> (0 <= dt)%R -> (1 <= N)%nat -> (1 <= Rn)%nat ->
  (forall g j i, (j < N)%nat -> (i <= nt)%nat ->
     S_at (simulate g).1 j i = S0 * exp (r * dt * INR i))%R /\
  (forall k, estimate k = estimate 0) /\
  run.1 = Printed (estimate 0) 0.
Proof.
  intros Hsigma _ _ HRn.
  assert (Hpath : forall g j i, (j < N)%nat -> (i <= nt)%nat ->
            S_at (simulate g).1 j i = (S0 * exp (r * dt * INR i))%R).
  { intros g j i Hj Hi. rewrite simulate_S_at by done. rewrite Hsigma.
    f_equal. f_equal. simpl. lra. }
  assert (Hbatch : forall g, (simulate g).1 = (simulate 0).1).
  { intros g. apply batch_ext; [apply simulate_shape|apply simulate_shape|].
    intros j i Hj Hi. by rewrite !Hpath. }
  assert (Hest : forall k, estimate k = estimate 0).
  { intros k. unfold estimate. by rewrite (Hbatch (k * (nt * N))%nat), (Hbatch (0 * (nt * N))%nat). }
  split; [done|]. split; [done|].
  unfold run. rewrite repetitions_spec. simpl.
  rewrite (const_fmap estimate (seq 0 Rn) (estimate 0)) by (intros; apply Hest).
  rewrite length_seq, mean_replicate, std_replicate by done. done.
Qed.

End Program.

(** ** The least-squares solver minimises the residual sum of squares *)

Section InnerProduct.

Implicit Types (L : list obs) (u v w : obs -> R).

Local Open Scope R_scope.

Lemma ip_nil u v : ip [] u v = 0.
Proof. reflexivity. Qed.

Lemma ip_cons p L u v : ip (p :: L) u v = u p * v p + ip L u v.
Proof. reflexivity. Qed.

Lemma ip_ext L u u' v v' :
  (forall p, u p = u' p) -> (forall p, v p = v' p) -> ip L u v = ip L u' v'.
Proof.
  intros Hu Hv. induction L as [|p L IH]; [done|].
  by rewrite !ip_cons, IH, Hu, Hv.
Qed.

Lemma ip_sym L u v : ip L u v = ip L v u.
Proof.
  induction L as [|p L IH]; [done|]. rewrite !ip_cons, IH. lra.
Qed.

Lemma ip_lin L (a b c d : R) (u1 u2 u3 u4 v : obs -> R) :
  ip L (fun p => a * u1 p + b * u2 p + c * u3 p + d * u4 p) v =
  a * ip L u1 v + b * ip L u2 v + c * ip L u3 v + d * ip L u4 v.
Proof.
  induction L as [|p L IH]; [rewrite !ip_nil; lra|]. rewrite !ip_cons, IH. lra.
Qed.

Lemma ip_nonneg L u : 0 <= ip L u u.
Proof.
  induction L as [|p L IH]; [rewrite ip_nil; lra|]. rewrite ip_cons. nra.
Qed.

(** A column of norm zero is orthogonal to every column. *)
Lemma ip_null L u v : ip L u u = 0 -> ip L v u = 0.
Proof.
  induction L as [|p L IH]; [done|]. rewrite !ip_cons. intros H.
  pose proof (ip_nonneg L u) as Hn.
  assert (Hp : u p = 0) by nra.
  rewrite IH by nra. rewrite Hp. lra.
Qed.

(** The defining equation of the projection coefficient. *)
Lemma coef_spec L u v : coef L u v * ip L u u = ip L v u.
Proof.
  unfold coef. destruct (Req_dec (ip L u u) 0) as [H0|Hne].
  - rewrite (ip_null L u v H0), H0. lra.
  - field. done.
Qed.

(** The orthogonalised columns are orthogonal to each other. *)
Lemma gs_u2_col0 L : ip L (gs_u2 L) col0 = 0.
Proof.
  rewrite (ip_ext L (gs_u2 L)
    (fun p => 1 * col1 p + (- gs_k21 L) * col0 p + 0 * col0 p + 0 * col0 p) col0 col0)
    by (intros; unfold gs_u2; lra).
  rewrite ip_lin. pose proof (coef_spec L col0 col1) as H. fold (gs_k21 L) in H. lra.
Qed.

Lemma gs_u3_expand L v :
  ip L (gs_u3 L) v =
  ip L col2 v - gs_k31 L * ip L col0 v - gs_k32 L * ip L (gs_u2 L) v.
Proof.
  rewrite (ip_ext L (gs_u3 L)
    (fun p => 1 * col2 p + (- gs_k31 L) * col0 p + (- gs_k32 L) * gs_u2 L p + 0 * col0 p) v v)
    by (intros; unfold gs_u3; lra).
  rewrite ip_lin. lra.
Qed.

Lemma gs_u3_col0 L : ip L (gs_u3 L) col0 = 0.
Proof.
  rewrite gs_u3_expand, gs_u2_col0.
  pose proof (coef_spec L col0 col2) as H. fold (gs_k31 L) in H. lra.
Qed.

Lemma gs_u3_u2 L : ip L (gs_u3 L) (gs_u2 L) = 0.
Proof.
  rewrite gs_u3_expand, (ip_sym L col0 (gs_u2 L)), gs_u2_col0.
  pose proof (coef_spec L (gs_u2 L) col2) as H. fold (gs_k32 L) in H. lra.
Qed.

(** The rest of [y] is orthogonal to the three columns of [X]. *)
Lemma gs_rest_expand L v :
  ip L (gs_rest L) v =
  ip L target v - gs_g1 L * ip L col0 v - gs_g2 L * ip L (gs_u2 L) v
  - gs_g3 L * ip L (gs_u3 L) v.
Proof.
  rewrite (ip_ext L (gs_rest L)
    (fun p => 1 * target p + (- gs_g1 L) * col0 p + (- gs_g2 L) * gs_u2 L p
              + (- gs_g3 L) * gs_u3 L p) v v)
    by (intros; unfold gs_rest; lra).
  rewrite ip_lin. lra.
Qed.

Lemma gs_rest_col0 L : ip L (gs_rest L) col0 = 0.
Proof.
  rewrite gs_rest_expand, gs_u2_col0, gs_u3_col0.
  pose proof (coef_spec L col0 target) as H. fold (gs_g1 L) in H. lra.
Qed.

Lemma gs_rest_u2 L : ip L (gs_rest L) (gs_u2 L) = 0.
Proof.
  rewrite gs_rest_expand, (ip_sym L col0 (gs_u2 L)), gs_u2_col0, gs_u3_u2.
  pose proof (coef_spec L (gs_u2 L) target) as H. fold (gs_g2 L) in H. lra.
Qed.

Lemma gs_rest_u3 L : ip L (gs_rest L) (gs_u3 L) = 0.
Proof.
  rewrite gs_rest_expand, (ip_sym L col0 (gs_u3 L)), gs_u3_col0.
  rewrite (ip_sym L (gs_u2 L) (gs_u3 L)), gs_u3_u2.
  pose proof (coef_spec L (gs_u3 L) target) as H. fold (gs_g3 L) in H. lra.
Qed.

Lemma gs_rest_col1 L : ip L (gs_rest L) col1 = 0.
Proof.
  rewrite (ip_sym L (gs_rest L) col1).
  rewrite (ip_ext L col1
    (fun p => 1 * gs_u2 L p + gs_k21 L * col0 p + 0 * col0 p + 0 * col0 p)
    (gs_rest L) (gs_rest L)) by (intros; unfold gs_u2; lra).
  rewrite ip_lin, (ip_sym L (gs_u2 L)), (ip_sym L col0), gs_rest_u2, gs_rest_col0. lra.
Qed.

Lemma gs_rest_col2 L : ip L (gs_rest L) col2 = 0.
Proof.
  rewrite (ip_sym L (gs_rest L) col2).
  rewrite (ip_ext L col2
    (fun p => 1 * gs_u3 L p + gs_k31 L * col0 p + gs_k32 L * gs_u2 L p + 0 * col0 p)
    (gs_rest L) (gs_rest L)) by (intros; unfold gs_u3; lra).
  rewrite ip_lin, (ip_sym L (gs_u3 L)), (ip_sym L col0), (ip_sym L (gs_u2 L)).
  rewrite gs_rest_u3, gs_rest_u2, gs_rest_col0. lra.
Qed.

Lemma rss_ip (X : list vec3) (y : list R) (b : vec3) :
  rss X y b = ip (zip X y) (residual b) (residual b).
Proof.
  unfold rss, ip. rewrite zip_with_zip. f_equal.
  apply list_fmap_ext. intros _ [x yi] _. unfold residual. simpl. lra.
Qed.

Example lstsq_gs_empty : lstsq_gs [] [] = (0, 0, 0).
Proof.
  unfold lstsq_gs, gs_g1, gs_g2, gs_g3, gs_k21, gs_k31, gs_k32, coef. simpl.
  rewrite !ip_nil. f_equal; [f_equal|]; lra.
Qed.

(** [lstsq_gs] is a least-squares solution: no coefficient vector has a
    smaller residual sum of squares. *)
Lemma lstsq_gs_least_squares (X : list vec3) (y : list R) (b : vec3) :
  rss X y (lstsq_gs X y) <= rss X y b.
Proof.
  rewrite !rss_ip. set (L := zip X y).
  destruct b as [[b0 b1] b2].
  pose (e := gs_rest L).
  pose (d := fun p : obs =>
    (b0 - (gs_g1 L - gs_g2 L * gs_k21 L - gs_g3 L * (gs_k31 L - gs_k32 L * gs_k21 L)))
      * col0 p +
    (b1 - (gs_g2 L - gs_g3 L * gs_k32 L)) * col1 p + (b2 - gs_g3 L) * col2 p
    + 0 * col0 p).
  assert (He : forall p, residual (lstsq_gs X y) p
                         = (-1) * e p + 0 * e p + 0 * e p + 0 * e p).
  { intros [[[a0 a1] a2] yi].
    unfold residual, lstsq_gs, e, gs_rest, gs_u3, gs_u2, col0, col1, col2, target.
    fold L. simpl. lra. }
  assert (Hb : forall p, residual (b0, b1, b2) p
                         = (-1) * e p + 1 * d p + 0 * e p + 0 * e p).
  { intros [[[a0 a1] a2] yi].
    unfold residual, d, e, gs_rest, gs_u3, gs_u2, col0, col1, col2, target.
    simpl. lra. }
  assert (Hed : ip L e d = 0).
  { rewrite (ip_sym L e d). unfold d. rewrite ip_lin.
    rewrite (ip_sym L col0 e), (ip_sym L col1 e), (ip_sym L col2 e).
    unfold e. rewrite gs_rest_col0, gs_rest_col1, gs_rest_col2. lra. }
  rewrite (ip_ext L _ _ _ _ He He), (ip_ext L _ _ _ _ Hb Hb).
  rewrite !ip_lin.
  rewrite (ip_sym L e (fun p => -1 * e p + 0 * e p + 0 * e p + 0 * e p)).
  rewrite (ip_sym L e (fun p => -1 * e p + 1 * d p + 0 * e p + 0 * e p)).
  rewrite (ip_sym L d (fun p => -1 * e p + 1 * d p + 0 * e p + 0 * e p)).
  rewrite !ip_lin. rewrite (ip_sym L d e), Hed.
  pose proof (ip_nonneg L d). lra.
Qed.

End InnerProduct.

(** ** The simulation and the draws *)

Lemma simulate_upto_S (r dt : R) (nt N : nat) (S0 sigma : R) (draws : nat -> R)
    (g : rng) (k : nat) :
  simulate_upto r dt nt N S0 sigma draws g (S k) =
  simulate_body r dt N sigma draws (simulate_upto r dt nt N S0 sigma draws g k) (S k).
Proof. unfold simulate_upto. by rewrite seq_S, fold_left_app. Qed.

(** The first [k] simulation steps read the draws [g], ..., [g + k N - 1]
    only. *)
Lemma simulate_upto_local (r dt : R) (nt N : nat) (S0 sigma : R)
    (draws draws' : nat -> R) (g : rng) (k : nat) :
  (k <= nt)%nat ->
  (forall i, (g <= i < g + k * N)%nat -> draws i = draws' i) ->
  simulate_upto r dt nt N S0 sigma draws g k =
  simulate_upto r dt nt N S0 sigma draws' g k.
Proof.
  induction k as [|k IH]; intros Hk Hagree; [done|].
  rewrite !simulate_upto_S, <- IH by (lia || (intros; apply Hagree; lia)).
  destruct (simulate_upto_spec r dt nt N S0 sigma draws g k ltac:(lia)) as (_ & Hg & _).
  destruct (simulate_upto r dt nt N S0 sigma draws g k) as [Sk gk].
  simpl in Hg. subst gk. unfold simulate_body, random_normal.
  assert (Hdraws : draws <$> seq (g + k * N) N = draws' <$> seq (g + k * N) N).
  { apply list_fmap_ext. intros i x Hx. apply lookup_seq in Hx as [-> Hlt].
    apply Hagree. lia. }
  by rewrite Hdraws.
Qed.

Lemma simulate_local (r dt : R) (nt N : nat) (S0 sigma : R)
    (draws draws' : nat -> R) (g : rng) :
  (forall i, (g <= i < g + nt * N)%nat -> draws i = draws' i) ->
  simulate r dt nt N S0 sigma draws g = simulate r dt nt N S0 sigma draws' g.
Proof. apply (simulate_upto_local r dt nt N S0 sigma draws draws' g nt). done. Qed.

(** X12: repetition [k] reads the draws [k nt N], ..., [(k + 1) nt N - 1]
    of the generator and no other: two generators that agree on them give
    the same price estimate; and the run reads the first [R nt N] draws
    only. *)
Theorem draws_are_read_by_window (r K dt : R) (nt N Rn : nat) (S0 sigma : R)
    (draws draws' : nat -> R) (lstsq : list vec3 -> list R -> vec3) :
  (forall k,
     (forall i, (k * (nt * N) <= i < S k * (nt * N))%nat -> draws i = draws' i) ->
     estimate r K dt nt N S0 sigma draws lstsq k =
     estimate r K dt nt N S0 sigma draws' lstsq k) /\
  ((forall i, (i < Rn * (nt * N))%nat -> draws i = draws' i) ->
   run r K dt nt N Rn S0 sigma draws lstsq = run r K dt nt N Rn S0 sigma draws' lstsq).
Proof.
  assert (Hest : forall k,
     (forall i, (k * (nt * N) <= i < S k * (nt * N))%nat -> draws i = draws' i) ->
     estimate r K dt nt N S0 sigma draws lstsq k =
     estimate r K dt nt N S0 sigma draws' lstsq k).
  { intros k Hagree. unfold estimate.
    rewrite (simulate_local r dt nt N S0 sigma draws draws'); [done|].
    intros i Hi. apply Hagree. simpl. lia. }
  split; [done|]. intros Hagree.
  unfold run. rewrite !repetitions_spec.
  assert (Hall : estimate r K dt nt N S0 sigma draws lstsq <$> seq 0 Rn =
                 estimate r K dt nt N S0 sigma draws' lstsq <$> seq 0 Rn).
  { apply list_fmap_ext. intros i k Hk. apply lookup_seq in Hk as [-> Hlt].
    apply Hest. intros i' Hi'. apply Hagree. simpl in *. nia. }
  by rewrite Hall.
Qed.

(** X13: the simulation is homogeneous in the initial price: multiplying
    [S0] by [c] multiplies every simulated price by [c]. *)
Theorem simulate_homogeneous (r dt : R) (nt N : nat) (S0 sigma : R)
    (draws : nat -> R) (c : R) (g : rng) (j i : nat) :
  (j < N)%nat -> (i <= nt)%nat ->
  S_at (simulate r dt nt N (c * S0) sigma draws g).1 j i =
  (c * S_at (simulate r dt nt N S0 sigma draws g).1 j i)%R.
Proof.
  intros Hj Hi. rewrite !simulate_S_at by done. lra.
Qed.

(** ** The statements at concrete data

    The solver is run with [r = 1], [K = 1], [dt = 1], [nt = 2], [N = 1]
    and [lstsq_gs] on the one-path batches above, unless said otherwise;
    the loop then has the single step [t = 1]. *)

Lemma batch_otm_shape : batch_shape 2 1 batch_otm.
Proof. split; [reflexivity|]. repeat constructor. Qed.

Lemma batch_otm_itm_paths : itm_paths 1 batch_otm 1 = [].
Proof.
  unfold itm_paths, batch_otm, Np.col. cbn.
  assert (Np.Rltb 2 1 = false) as -> by (apply Rltb_false; lra).
  reflexivity.
Qed.

(** Zero volatility and zero rate, with [K = 2], [S0 = 1], [dt = 1],
    [nt = 2], [N = 1] and all draws zero. *)
Lemma zero_vol_zero_rate_price_witness :
  price 0 2 1 2 1 lstsq_gs (simulate 0 1 2 1 1 0 draws_zero 0%nat).1 = Rmax (2 - 1) 0.
Proof.
  refine (proj2 (proj2
    (zero_vol_zero_rate_price 0 2 1 2 1 1 0 draws_zero lstsq_gs 0%nat _ _ _ _))).
  - reflexivity.
  - reflexivity.
  - lia.
  - intros X y b _. apply lstsq_gs_least_squares.
Defined.

(** The exercise time of the path [1, 2, 1/2] at the end of the loop. *)
Lemma exec_t_valid_and_monotone_witness :
  (1 <= (exec_t (backward_induction 1 1 1 2 1 lstsq_gs batch_otm) !!! 0%nat) <= 2)%nat.
Proof.
  refine (proj1 (exec_t_valid_and_monotone 1 1 1 2 1 lstsq_gs batch_otm 0 _ _ _)).
  - lia.
  - reflexivity.
  - lia.
Defined.

(** The path [1/2, 1/2, 1/2] at the step [t = 1]. *)
Lemma strict_comparisons_witness :
  0%nat ∈ itm_paths 1 batch_itm 1 <-> (S_at batch_itm 0 1 < 1)%R.
Proof.
  refine (proj1 (strict_comparisons 1 1 1 2 1 lstsq_gs batch_itm [] [] 1 0 _ _ _)).
  - reflexivity.
  - lia.
  - reflexivity.
Defined.

(** The path [1, 2, 1/2] at the step [t = 1], where it is out of the
    money. *)
Lemma exercise_only_in_the_money_witness :
  exec_t (state_after 1 1 1 2 1 lstsq_gs batch_otm []) !!! 0%nat <> 1%nat.
Proof.
  refine (proj1 (exercise_only_in_the_money 1 1 1 2 1 lstsq_gs batch_otm [] [] 1 0 _ _ _)).
  - reflexivity.
  - lia.
  - reflexivity.
Defined.

(** The batch [1, 2, 1/2] has no path in the money at [t = 1]. *)
Lemma empty_itm_step_witness :
  payoff (state_after 1 1 1 2 1 lstsq_gs batch_otm ([] ++ [1%nat])) =
  discount 1 1 (payoff (state_after 1 1 1 2 1 lstsq_gs batch_otm [])).
Proof.
  refine (proj1 (proj2 (proj2 (proj2 (proj2
    (empty_itm_step 1 1 1 2 1 lstsq_gs batch_otm [] [] 1 _ _ _)))))).
  - reflexivity.
  - reflexivity.
  - exact batch_otm_itm_paths.
Defined.

(** The payoff of the path [1, 2, 1/2] after the step [t = 1]. *)
Lemma payoff_is_discounted_intrinsic_witness :
  let st := state_after 1 1 1 2 1 lstsq_gs batch_otm [1%nat] in
  payoff st !!! 0%nat =
  (exp (- 1 * 1) ^ (exec_t st !!! 0%nat - (2 - 1))
   * Rmax (1 - S_at batch_otm 0 (exec_t st !!! 0%nat)) 0)%R.
Proof.
  refine (proj1 (proj2
    (payoff_is_discounted_intrinsic 1 1 1 2 1 lstsq_gs batch_otm [1%nat] [] 0 _ _ _))).
  - exact batch_otm_shape.
  - lia.
  - reflexivity.
Defined.

(** One path, one repetition, [r = 0]. *)
Lemma payoff_and_price_nonneg_witness :
  (0 <= price 0 1 1 2 1 lstsq_gs batch_otm)%R.
Proof.
  refine (proj1 (proj2
    (payoff_and_price_nonneg 0 1 1 2 1 1 1 1 draws_zero lstsq_gs _ _)) batch_otm).
  - lia.
  - lia.
Defined.

(** C7 as stated fails: with [r = 1], [dt = 1], [K = 1] and the path
    [1, 2, 1/2], the path is out of the money at [t = 1], so after that
    step its exercise time is still 2 and its payoff is [exp(-1) / 2], not
    the intrinsic value [1/2] at its exercise time. *)
Lemma undiscounted_payoff_counterexample :
  let st := state_after 1 1 1 2 1 lstsq_gs batch_otm [1%nat] in
  backward_range 2 = [1%nat] /\
  exec_t st !!! 0%nat = 2%nat /\
  payoff st !!! 0%nat = (exp (- 1 * 1) * / 2)%R /\
  Rmax (1 - S_at batch_otm 0 2) 0 = (/ 2)%R /\
  payoff st !!! 0%nat <> Rmax (1 - S_at batch_otm 0 (exec_t st !!! 0%nat)) 0.
Proof.
  intros st.
  assert (Hmax : Rmax (1 - / 2) 0 = (/ 2)%R) by (rewrite Rmax_left; lra).
  assert (Hst : exec_t st !!! 0%nat = 2%nat /\
                payoff st !!! 0%nat = (exp (- 1 * 1) * / 2)%R).
  { unfold st, state_after. cbn [fold_left].
    unfold backward_step. rewrite batch_otm_itm_paths. cbn.
    by rewrite Hmax. }
  destruct Hst as [He Hp].
  split; [reflexivity|]. split; [done|]. split; [done|].
  split; [exact Hmax|].
  rewrite He, Hp. change (S_at batch_otm 0 2) with (/ 2)%R. rewrite Hmax.
  pose proof (exp_increasing (- 1 * 1) 0 ltac:(lra)) as Hexp.
  rewrite exp_0 in Hexp. lra.
Qed.

Lemma mean_singleton (x : R) : Np.mean [x] = x.
Proof. unfold Np.mean, Np.sum. simpl. lra. Qed.

Lemma two_estimates :
  (repetitions 0 3 1 1 1 2 1 1 draws_two lstsq_gs).1 = [2; 0]%R.
Proof.
  rewrite repetitions_spec. cbn [fst fmap list_fmap seq].
  unfold estimate, price, backward_induction, backward_range, state_after.
  cbn. rewrite !mean_singleton, sqrt_1.
  replace (- 0 * 1)%R with 0%R by lra.
  replace ((0 - 0.5 * (1 * (1 * 1))) * 1 + 1 * 1 * / 2)%R with 0%R by lra.
  replace ((0 - 0.5 * (1 * (1 * 1))) * 1 + 1 * 1 * (/ 2 + ln 3))%R with (ln 3) by lra.
  rewrite exp_0, exp_ln by lra.
  replace (3 - 1 * 1)%R with 2%R by lra.
  replace (3 - 1 * 3)%R with 0%R by lra.
  rewrite Rmax_left by lra. rewrite Rmax_left by lra.
  f_equal; [lra|]. f_equal. lra.
Qed.

(** C3 as stated fails: with one path, one time step, strike 3 and the
    draws [1/2] and [1/2 + ln 3], the two price estimates are 2 and 0; the
    run reports the standard deviation 1, the sample standard deviation of
    the estimates is [sqrt 2]. *)
Lemma sample_std_counterexample :
  let price_estimate := (repetitions 0 3 1 1 1 2 1 1 draws_two lstsq_gs).1 in
  price_estimate = [2; 0]%R /\
  (run 0 3 1 1 1 2 1 1 draws_two lstsq_gs).1 = Printed 1 1 /\
  sample_std price_estimate = sqrt 2 /\
  (1 <> sqrt 2)%R.
Proof.
  intros price_estimate.
  assert (Hpe : price_estimate = [2; 0]%R) by exact two_estimates.
  assert (Hmean : Np.mean [2; 0]%R = 1%R).
  { unfold Np.mean, Np.sum. simpl. lra. }
  split; [done|]. split; [|split].
  - unfold run. fold price_estimate.
    destruct (repetitions 0 3 1 1 1 2 1 1 draws_two lstsq_gs) as [pe g] eqn:E.
    simpl in price_estimate. subst price_estimate. subst pe. simpl.
    f_equal; [done|].
    unfold Np.std, Np.var. rewrite Hmean. unfold Np.sum. simpl.
    replace ((2 - 1) * ((2 - 1) * 1) + ((0 - 1) * ((0 - 1) * 1) + 0))%R with 2%R by lra.
    replace (2 / (1 + 1 - 0))%R with 1%R by lra. apply sqrt_1.
  - rewrite Hpe. unfold sample_std. rewrite Hmean. unfold Np.sum. simpl.
    f_equal. lra.
  - pose proof (sqrt_lt_1 1 2 ltac:(lra) ltac:(lra) ltac:(lra)) as Hlt.
    rewrite sqrt_1 in Hlt. lra.
Qed.


(** ** An early exercise, end to end *)

(** On a single row the least-squares fit is exact. *)
Lemma lstsq_gs_single (s y0 : R) :
  dot3 (design_row s) (lstsq_gs [design_row s] [y0]) = y0.
Proof.
  pose proof (lstsq_gs_least_squares [design_row s] [y0] (y0, 0, 0)%R) as Hls.
  change [design_row s] with (replicate 1 (design_row s)) in Hls.
  change [y0] with (replicate 1 y0) in Hls.
  rewrite !rss_replicate in Hls.
  change (replicate 1 (design_row s)) with [design_row s] in Hls.
  change (replicate 1 y0) with [y0] in Hls.
  set (f := dot3 (design_row s) (lstsq_gs [design_row s] [y0])) in *.
  assert (Hdot : dot3 (design_row s) (y0, 0, 0)%R = y0).
  { unfold dot3, design_row. lra. }
  rewrite Hdot in Hls. simpl in Hls.
  assert (Hsq : ((f - y0) * (f - y0) <= 0)%R) by lra.
  nra.
Qed.

(** With [r = 0], [K = 1] and the path [1, 1/2, 1]: the path is worth
    nothing at maturity; at [t = 1] it is in the money, the regression fits
    the continuation value 0, which is below the intrinsic value [1/2], so
    the path exercises at [t = 1] and the price estimate is [1/2]. *)
Example early_exercise :
  let st := backward_induction 0 1 1 2 1 lstsq_gs batch_early in
  itm_paths 1 batch_early 1 = [0%nat] /\
  exec_t st !!! 0%nat = 1%nat /\
  payoff st !!! 0%nat = (/ 2)%R /\
  price 0 1 1 2 1 lstsq_gs batch_early = (/ 2)%R.
Proof.
  intros st.
  assert (Hitm : itm_paths 1 batch_early 1 = [0%nat]).
  { unfold itm_paths, batch_early, Np.col. cbn.
    assert (Np.Rltb (/ 2) 1 = true) as -> by (apply Rltb_true; lra).
    reflexivity. }
  set (st0 := solver_init 1 2 1 batch_early).
  assert (Hst0 : shaped 1 st0) by (by apply solver_init_shaped).
  assert (Hst : st = backward_step 0 1 1 lstsq_gs batch_early st0 1) by reflexivity.
  assert (Hdisc : exp (- 0 * 1) = 1%R).
  { replace (- 0 * 1)%R with 0%R by lra. apply exp_0. }
  assert (Hfit : fitted 0 1 1 lstsq_gs batch_early st0 1 (/ 2) = 0%R).
  { unfold fitted, regress, design. rewrite Hitm. cbn.
    rewrite Hdisc. replace (1 * Rmax (1 - 1) 0)%R with 0%R.
    - apply lstsq_gs_single.
    - rewrite Rmax_left; lra. }
  assert (Hexec : exec_t st !!! 0%nat = 1%nat).
  { rewrite Hst, (step_exec_t 0 1 1 1) by (done || lia).
    change (S_at batch_early 0 1) with (/ 2)%R. rewrite Hfit.
    assert (Np.Rltb (/ 2) 1 = true) as -> by (apply Rltb_true; lra).
    assert (Np.Rltb 0 (Rmax (1 - / 2) 0) = true) as ->.
    { apply Rltb_true. rewrite Rmax_left; lra. }
    done. }
  assert (Hpay : payoff st !!! 0%nat = (/ 2)%R).
  { rewrite Hst, (step_payoff 0 1 1 1) by (done || lia).
    rewrite <- Hst, Hexec. simpl Nat.eqb. cbv iota.
    rewrite Hst, (step_intrinsic 0 1 1 1) by (done || lia).
    change (S_at batch_early 0 1) with (/ 2)%R.
    assert (Np.Rltb (/ 2) 1 = true) as -> by (apply Rltb_true; lra).
    rewrite Rmax_left; lra. }
  split; [done|]. split; [done|]. split; [done|].
  unfold price. fold st.
  assert (Hlen : length (payoff st) = 1%nat).
  { rewrite Hst. by apply (step_shaped 0 1 1 1). }
  destruct (payoff st) as [|x [|? ?]] eqn:E; try done.
  change ([x] !!! 0%nat) with x in Hpay. subst x.
  unfold discount. cbn. rewrite mean_singleton, Hdisc. lra.
Qed.

(** ** Further statements at concrete data *)

(** One path, two steps, [r = 0], [dt = 1], [S0 = 1], [sigma = 1]. *)
Lemma gbm_closed_form_witness :
  S_at (simulate 0 1 2 1 1 1 draws_zero 0%nat).1 0 2 =
  (1 * exp ((0 - 0.5 * 1 ^ 2) * 1 * INR 2 + 1 * sqrt 1 * draw_sum 1 draws_zero 0 0 2))%R.
Proof.
  refine (proj1 (gbm_closed_form 0 1 2 1 1 1 draws_zero 0%nat 0 2 _ _)); lia.
Defined.

Lemma simulated_prices_sign_witness :
  (0 < S_at (simulate 0 1 2 1 1 1 draws_zero 0%nat).1 0 2)%R.
Proof.
  refine (proj1 (simulated_prices_sign 0 1 2 1 1 1 draws_zero 0%nat 0 2 _ _ _) _);
    [lra|lia|lia|lra].
Defined.

(** The regression of the step [t = 1] on the path [1/2, 1/2, 1/2], from
    the state before the loop. *)
Lemma regression_inputs_witness :
  length (design 1 batch_itm 1) =
  length (Np.fancy_get (discount 1 1 (payoff (solver_init 1 2 1 batch_itm)))
            (itm_paths 1 batch_itm 1)).
Proof.
  refine (proj2 (proj2 (proj2 (proj2 (proj2 (proj2
    (regression_inputs 1 1 1 1 lstsq_gs batch_itm (solver_init 1 2 1 batch_itm) 1 _ _)))))));
    reflexivity.
Defined.

(** The path [1, 1/2, 1] with [r = 0]: it exercises at [t = 1]. *)
Lemma exercise_time_is_first_firing_witness :
  let e := exec_t (backward_induction 0 1 1 2 1 lstsq_gs batch_early) !!! 0%nat in
  (e = 2%nat /\
   forall u, (1 <= u <= 2 - 1)%nat ->
     exercise_test 0 1 1 2 1 lstsq_gs batch_early u 0 = false) \/
  ((1 <= e <= 2 - 1)%nat /\
   exercise_test 0 1 1 2 1 lstsq_gs batch_early e 0 = true /\
   forall u, (1 <= u < e)%nat ->
     exercise_test 0 1 1 2 1 lstsq_gs batch_early u 0 = false).
Proof.
  refine (exercise_time_is_first_firing 0 1 1 2 1 lstsq_gs batch_early 0 _ _ _);
    [reflexivity|lia|lia].
Defined.

Lemma batch_early_shape : batch_shape 2 1 batch_early.
Proof. split; [reflexivity|]. repeat constructor. Qed.

Lemma price_is_mean_exercise_value_witness :
  price 0 1 1 2 1 lstsq_gs batch_early =
  Np.mean ((fun j =>
              let e := exec_t (backward_induction 0 1 1 2 1 lstsq_gs batch_early) !!! j in
              exp (- 0 * 1 * INR e) * Rmax (1 - S_at batch_early j e) 0)%R
           <$> seq 0 1).
Proof.
  refine (price_is_mean_exercise_value 0 1 1 2 1 lstsq_gs batch_early _ _ _);
    [exact batch_early_shape|lia|lia].
Defined.

Lemma early_exercise_pays_witness :
  (0 < exercise_value 0 1 1 2 1 lstsq_gs batch_early 0)%R.
Proof.
  refine (proj2 (proj2 (proj2
    (early_exercise_pays 0 1 1 2 1 lstsq_gs batch_early 0 _ _ _)))).
  - reflexivity.
  - lia.
  - pose proof early_exercise as H. cbv zeta in H.
    destruct H as (_ & He & _). rewrite He. lia.
Defined.

(** The path [1, 2, 1/2] with the strike [1/2] is never in the money. *)
Lemma never_in_the_money_witness :
  price 0 (/ 2) 1 2 1 lstsq_gs batch_otm = 0%R.
Proof.
  refine (proj2 (never_in_the_money 0 (/ 2) 1 2 1 lstsq_gs batch_otm _ _ _) _).
  - exact batch_otm_shape.
  - lia.
  - lia.
  - intros j t Hj Ht.
    assert (j = 0%nat) as -> by lia.
    assert (t = 1%nat \/ t = 2%nat) as [-> | ->] by lia; cbn; lra.
Defined.

(** [S0 = 1], [K = 1], [r = 0], [dt = 1], one path, two steps, one
    repetition, [sigma = 1]. *)
Lemma price_between_zero_and_strike_witness :
  (0 <= price 0 1 1 2 1 lstsq_gs (simulate 0 1 2 1 1 1 draws_zero 0%nat).1 <= 1)%R.
Proof.
  refine (proj1 (price_between_zero_and_strike 0 1 1 2 1 1 1 1 draws_zero lstsq_gs _ _ _ _ _)
            0%nat); [lra|lra|lra|lra|lia].
Defined.

(** One path over a single step. *)
Lemma single_step_price_witness :
  price 1 1 1 1 1 lstsq_gs batch_single =
  (exp (- 1 * 1) * Np.mean ((fun j => Rmax (1 - S_at batch_single j 1) 0) <$> seq 0 1))%R.
Proof.
  refine (proj2 (proj2 (single_step_price 1 1 1 1 1 lstsq_gs batch_single _ _ _))).
  - reflexivity.
  - split; [reflexivity|]. repeat constructor.
  - lia.
Defined.

(** Zero volatility, two repetitions. *)
Lemma zero_volatility_run_witness :
  (run 1 1 1 2 1 2 1 0 draws_two lstsq_gs).1 =
  Printed (estimate 1 1 1 2 1 1 0 draws_two lstsq_gs 0) 0.
Proof.
  refine (proj2 (proj2 (zero_volatility_run 1 1 1 2 1 2 1 0 draws_two lstsq_gs _ _ _ _)));
    [reflexivity|lra|lia|lia].
Defined.

Lemma simulate_homogeneous_witness :
  S_at (simulate 0 1 2 1 (3 * 1) 1 draws_zero 0%nat).1 0 2 =
  (3 * S_at (simulate 0 1 2 1 1 1 draws_zero 0%nat).1 0 2)%R.
Proof.
  refine (simulate_homogeneous 0 1 2 1 1 1 draws_zero 3 0%nat 0 2 _ _); lia.
Defined.

(** The state before the loop on the path [1/2, 1/2, 1/2] and a state
    with the same payoff, another intrinsic value and another exercise
    time. *)
Lemma regression_ignores_otm_witness :
  regress 1 1 1 lstsq_gs batch_itm (solver_init 1 2 1 batch_itm) 1 =
  regress 1 1 1 lstsq_gs batch_itm (mkState [0%R] [(/ 2)%R] [1%nat] []) 1.
Proof.
  refine (proj1 (regression_ignores_otm 1 1 1 1 lstsq_gs batch_itm
    (solver_init 1 2 1 batch_itm) (mkState [0%R] [(/ 2)%R] [1%nat] []) 1 _ _ _ _)).
  - reflexivity.
  - reflexivity.
  - reflexivity.
  - intros j Hj _. assert (j = 0%nat) as -> by lia.
    cbn. rewrite Rmax_left; lra.
Defined.
